(** * TrainingTheArchive: relevance state, search and embedding refinement

    A shallow embedding of the core of the repository:
    - [ArtSearch.py]    the per-group relevance tensors [positive]/[negative],
                        group bookkeeping, the validity mask and persistence;
    - [SearchEngine.py] masked top-k retrieval;
    - [Embedding.py]    the locally gated correction model, the centre margin
                        loss and the optimisation loop.

    Boolean tensors of shape (G+1, N) are lists of rows of [bool]; Python
    integers are [Z]; Python exceptions are results of a state-and-error
    monad, so that the state left behind by a raising call is observable. *)

From Stdlib Require Import ZArith QArith Reals Lra Lia Permutation.
From stdpp Require Import base option list sorting.

Set Default Proof Using "Type".

(* ===================================================================== *)
(** ** Exceptions and the state-and-error monad *)
(* ===================================================================== *)

Module Py.

(** The Python exceptions the modelled code can raise. *)
Inductive exn : Type :=
| IndexError   (* tensor or list index out of range *)
| ValueError   (* list.index of an absent element; torch: an index that
                  overflows a signed 64-bit integer *)
| RuntimeError (* torch: reduction over an empty tensor, k out of range *).

Inductive result (A : Type) : Type :=
| Ok (a : A)
| Raise (e : exn).
Arguments Ok {A} a.
Arguments Raise {A} e.

(** Pure computations that may raise use [result] directly. *)
Global Instance result_ret : MRet result := λ A a, Ok a.
Global Instance result_bind : MBind result :=
  λ A B k r, match r with Ok a => k a | Raise e => Raise e end.
Global Instance result_fmap : FMap result :=
  λ A B f r, match r with Ok a => Ok (f a) | Raise e => Raise e end.

(** A method of an object with state [S]: it returns or raises, and in both
    cases leaves a state behind. *)
Definition M (S A : Type) : Type := S → result A * S.

Definition ret {S A} (a : A) : M S A := λ s, (Ok a, s).

Definition bind {S A B} (m : M S A) (k : A → M S B) : M S B :=
  λ s, match m s with
       | (Ok a, s') => k a s'
       | (Raise e, s') => (Raise e, s')
       end.

Definition raise {S A} (e : exn) : M S A := λ s, (Raise e, s).
Definition get {S} : M S S := λ s, (Ok s, s).
Definition modify {S} (f : S → S) : M S unit := λ s, (Ok tt, f s).

(** An option-valued tensor access lifted into the monad. *)
Definition lift {S A} (e : exn) (o : option A) : M S A :=
  match o with Some a => ret a | None => raise e end.

(** [for x in l: body x] *)
Fixpoint for_each {S A} (l : list A) (body : A → M S unit) : M S unit :=
  match l with
  | [] => ret tt
  | x :: l' => bind (body x) (λ _, for_each l' body)
  end.

End Py.

Import Py.

Declare Scope py_scope.
Delimit Scope py_scope with py.
Notation "x ⇐ m ;; k" := (bind m (λ x, k))
  (at level 100, m at next level, right associativity) : py_scope.
Notation "m ;;; k" := (bind m (λ _, k))
  (at level 100, right associativity) : py_scope.

(* ===================================================================== *)
(** ** Tensor indexing *)
(* ===================================================================== *)

Module Tensor.

(** A bool tensor of shape (rows, N). *)
Definition t : Type := list (list bool).

(** [torch.zeros(N, dtype=torch.bool)] *)
Definition zeros (N : nat) : list bool := replicate N false.

(** [torch.zeros_like(x)] on a 2-d tensor. *)
Definition zeros_like (x : t) : t := (λ r, zeros (length r)) <$> x.

(** Integer indexing into a dimension of size [n]: [0 .. n-1] address from
    the front, [-n .. -1] from the back, anything else is rejected ([None]);
    [index_exn] below is the exception a rejected index raises. *)
Definition norm_index (n : nat) (i : Z) : option nat :=
  if decide (0 ≤ i < Z.of_nat n)%Z then Some (Z.to_nat i)
  else if decide (- Z.of_nat n ≤ i < 0)%Z then Some (Z.to_nat (Z.of_nat n + i))
  else None.

(** A Python int is unbounded, while torch unpacks an index into a signed
    64-bit integer before it looks at the size of the dimension: an index
    that does not fit raises ValueError (overflow when unpacking), one that
    fits but lies outside [-n .. n-1] raises IndexError. *)
Definition fits_int64 (i : Z) : Prop := (- 2 ^ 63 ≤ i < 2 ^ 63)%Z.
Definition index_exn (i : Z) : exn :=
  if decide (- 2 ^ 63 ≤ i < 2 ^ 63)%Z then IndexError else ValueError.

(** The exception of a rejected write [x[0][i] = v]: [x[0]] is evaluated
    first, and on a tensor without rows it is an IndexError whatever [i]. *)
Definition write0_exn (x : t) (i : Z) : exn :=
  match x with
  | [] => IndexError
  | _ :: _ => index_exn i
  end.

(** [row[i] = v] *)
Definition row_set (row : list bool) (i : Z) (v : bool) : option (list bool) :=
  k ← norm_index (length row) i; Some (<[k := v]> row).

(** [x[r][i] = v]: [x[r]] is a view, so the write lands in [x]. *)
Definition set2 (x : t) (r i : Z) (v : bool) : option t :=
  k ← norm_index (length x) r;
  row ← x !! k;
  row' ← row_set row i v;
  Some (<[k := row']> x).

(** [row.nonzero().flatten().tolist()]: the positions holding [True], in
    increasing order. *)
Fixpoint nonzero_from (k : nat) (row : list bool) : list Z :=
  match row with
  | [] => []
  | b :: row' =>
      (if b then [Z.of_nat k] else []) ++ nonzero_from (S k) row'
  end.
Definition nonzero (row : list bool) : list Z := nonzero_from 0 row.

(** The local helper [delete(arr, ind, dim)] of [remove_group], at [dim = 0]:
    [skip = [i for i in range(arr.shape[0]) if i != ind]] and then [arr[skip]]. *)
Definition skip_indices (n ind : nat) : list nat :=
  filter (λ i, i ≠ ind) (seq 0 n).
Definition delete_row (arr : t) (ind : nat) : t :=
  omap (λ i, arr !! i) (skip_indices (length arr) ind).

(** The entry for item [j] in row [g], when it exists. *)
Definition entry (x : t) (g j : nat) : option bool :=
  row ← x !! g; row !! j.

(** [for index in l: row[index] = True] on a single row; [None] as soon as
    one index is out of range. *)
Fixpoint mark_each (row : list bool) (l : list Z) : option (list bool) :=
  match l with
  | [] => Some row
  | i :: l' => row' ← row_set row i true; mark_each row' l'
  end.

End Tensor.

(* ===================================================================== *)
(** ** ArtSearch.py: the relevance state *)
(* ===================================================================== *)

Module ArtSearch.

(** Canvas groups are GUI objects compared by identity. *)
Definition Group : Type := nat.

Record state : Type := mkState {
  paths_len : nat;            (* len(self.paths): the collection size N *)
  groups    : list Group;     (* self.groups *)
  positive  : Tensor.t;       (* self.positive, row 0 is the canvas *)
  negative  : Tensor.t;       (* self.negative *)
}.

Definition set_positive (p : Tensor.t) (s : state) : state :=
  mkState (paths_len s) (groups s) p (negative s).
Definition set_negative (n : Tensor.t) (s : state) : state :=
  mkState (paths_len s) (groups s) (positive s) n.
Definition set_groups (g : list Group) (s : state) : state :=
  mkState (paths_len s) g (positive s) (negative s).

(** [self.positive[0][i] = v] *)
Definition write_positive0 (i : Z) (v : bool) : M state unit :=
  (s ⇐ get ;;
   p ⇐ lift (Tensor.write0_exn (positive s) i) (Tensor.set2 (positive s) 0 i v) ;;
   modify (set_positive p))%py.

(** [self.negative[0][i] = v] *)
Definition write_negative0 (i : Z) (v : bool) : M state unit :=
  (s ⇐ get ;;
   n ⇐ lift (Tensor.write0_exn (negative s) i) (Tensor.set2 (negative s) 0 i v) ;;
   modify (set_negative n))%py.

Definition setImageNeutral (image_id : Z) : M state unit :=
  (write_positive0 image_id false ;;; write_negative0 image_id false)%py.

Definition setImageNegative (image_id : Z) : M state unit :=
  (write_positive0 image_id false ;;; write_negative0 image_id true)%py.

Definition setImagePositive (image_id : Z) : M state unit :=
  (write_positive0 image_id true ;;; write_negative0 image_id false)%py.

(** [reset]: both tensors back to one all-false row; [groups] is kept. *)
Definition reset : M state unit :=
  (modify (λ s, set_positive [Tensor.zeros (paths_len s)] s) ;;;
   modify (λ s, set_negative [Tensor.zeros (paths_len s)] s))%py.

(** [create_group]: the positive tensor grows by a zero row, the negative
    tensor by a clone of its own first row. *)
Definition create_group (group : Group) : M state unit :=
  (modify (λ s, set_groups (groups s ++ [group]) s) ;;;
   s ⇐ get ;;
   if decide (length (positive s) ≤ length (groups s)) then
     modify (set_positive (positive s ++ Tensor.zeros_like (take 1 (positive s)))) ;;;
     modify (set_negative (negative s ++ take 1 (negative s)))
   else ret tt)%py.

(** [list.index]: position of the first equal element. *)
Fixpoint list_index (group : Group) (l : list Group) : option nat :=
  match l with
  | [] => None
  | g :: l' => if decide (g = group) then Some 0 else S <$> list_index group l'
  end.

(** [list.remove]: drops the first equal element. *)
Fixpoint list_remove (group : Group) (l : list Group) : list Group :=
  match l with
  | [] => []
  | g :: l' => if decide (g = group) then l' else g :: list_remove group l'
  end.

Definition remove_group (group : Group) : M state unit :=
  (s ⇐ get ;;
   i ⇐ lift ValueError (list_index group (groups s)) ;;
   let index := S i in
   modify (set_groups (list_remove group (groups s))) ;;;
   modify (λ s, set_positive (Tensor.delete_row (positive s) index) s) ;;;
   modify (λ s, set_negative (Tensor.delete_row (negative s) index) s))%py.

(** The persisted payload: two lists of integers. *)
Record payload : Type := mkPayload {
  data_positive : list Z;
  data_negative : list Z;
}.

(** [serialize]: the nonzero positions of row 0 of each tensor. *)
Definition serialize : M state payload :=
  (s ⇐ get ;;
   p ⇐ lift IndexError (positive s !! 0) ;;
   n ⇐ lift IndexError (negative s !! 0) ;;
   ret (mkPayload (Tensor.nonzero p) (Tensor.nonzero n)))%py.

(** [deserialize]: clear the groups, reset both tensors, then replay the
    two index lists, positives first. *)
Definition deserialize (data : payload) : M state unit :=
  (modify (set_groups []) ;;;
   modify (λ s, set_positive [Tensor.zeros (paths_len s)] s) ;;;
   modify (λ s, set_negative [Tensor.zeros (paths_len s)] s) ;;;
   for_each (data_positive data) (λ index, write_positive0 index true) ;;;
   for_each (data_negative data) (λ index, write_negative0 index true))%py.

(** The shape invariant of a session: one row pair per group plus the
    canvas row, every row of length N.  Every method above keeps it except
    [reset], which keeps [groups] while dropping their rows. *)
Record wf (s : state) : Prop := mkWf {
  wf_pos_rows : length (positive s) = S (length (groups s));
  wf_neg_rows : length (negative s) = S (length (groups s));
  wf_pos_cols : Forall (λ r, length r = paths_len s) (positive s);
  wf_neg_cols : Forall (λ r, length r = paths_len s) (negative s);
}.

(** Row 0 of both tensors, the canvas rows, with one entry per item. *)
Record canvas_rows (s : state) (p0 n0 : list bool) : Prop := mkCanvas {
  canvas_pos : positive s !! 0 = Some p0;
  canvas_neg : negative s !! 0 = Some n0;
  canvas_pos_len : length p0 = paths_len s;
  canvas_neg_len : length n0 = paths_len s;
}.

(** [s'] differs from [s] at most in the entries of item [i] in row 0 of
    the two tensors. *)
Record same_except_item (i : nat) (s s' : state) : Prop := mkFrame {
  frame_paths : paths_len s' = paths_len s;
  frame_groups : groups s' = groups s;
  frame_pos_rows : length (positive s') = length (positive s);
  frame_neg_rows : length (negative s') = length (negative s);
  frame_pos_user : ∀ g, g ≠ 0 → positive s' !! g = positive s !! g;
  frame_neg_user : ∀ g, g ≠ 0 → negative s' !! g = negative s !! g;
  frame_pos_items :
    ∀ j, j ≠ i → Tensor.entry (positive s') 0 j = Tensor.entry (positive s) 0 j;
  frame_neg_items :
    ∀ j, j ≠ i → Tensor.entry (negative s') 0 j = Tensor.entry (negative s) 0 j;
  frame_pos_width :
    length <$> positive s' !! 0 = length <$> positive s !! 0;
  frame_neg_width :
    length <$> negative s' !! 0 = length <$> negative s !! 0;
}.

End ArtSearch.

(* ===================================================================== *)
(** ** SearchEngine.py: masked top-k retrieval *)
(* ===================================================================== *)

(** Scores are only multiplied, added and compared here, so float tensors
    are modelled by rationals, which keeps the search executable. *)

Module SearchEngine.

Definition vec : Type := list Q.
Definition matrix : Type := list vec.

(** [x @ y] for two 1-d tensors. *)
Definition dot (x y : vec) : Q :=
  foldr Qplus 0%Q (zip_with Qmult x y).

(** [m * valid.unsqueeze(1)]: row [i] is scaled by 1.0 or 0.0; both have
    one row per item (torch refuses to broadcast a mask of another length,
    which this function cuts short instead). *)
Definition mask_rows (m : matrix) (valid : list bool) : matrix :=
  zip_with (λ row (b : bool), map (Qmult (if b then 1%Q else 0%Q)) row) m valid.

(** [(m * valid.unsqueeze(1)) @ features.T], column 0. *)
Definition similarity (m : matrix) (valid : list bool) (features : vec) : list Q :=
  map (λ row, dot row features) (mask_rows m valid).

(** [valid.nonzero().shape[0]] *)
Definition count_valid (valid : list bool) : nat :=
  length (filter (λ b, b = true) valid).

(** [tensor.topk(k)]: the indices of the [k] largest values, largest
    first; RuntimeError when [k] exceeds the size.  torch leaves the order
    of equal values open; here the lower index comes first. *)
Fixpoint insert_desc (x : nat * Q) (l : list (nat * Q)) : list (nat * Q) :=
  match l with
  | [] => [x]
  | y :: l' =>
      if Qle_bool (snd y) (snd x) then x :: y :: l'
      else y :: insert_desc x l'
  end.

Definition sort_desc (l : list (nat * Q)) : list (nat * Q) :=
  foldr insert_desc [] l.

Definition topk (k : nat) (scores : list Q) : result (list nat) :=
  if decide (k ≤ length scores) then
    Ok (take k (fst <$> sort_desc (zip (seq 0 (length scores)) scores)))
  else Raise RuntimeError.

Section Engine.

(** Query texts (after tokenisation) and query images. *)
Variables Text Image : Type.

Record engine : Type := mkEngine {
  encodings : matrix;          (* frozen, normalised base embeddings *)
  embeddings : matrix;         (* refined embeddings *)
  use_embedding : bool;
  encode_text : Text → vec;    (* self.embedder.encode_text: frozen encoder *)
  embed_text : Text → vec;     (* self.embedder.embed_text: encoder, then refiner *)
  encode_image : Image → vec;
  embed_image : Image → vec;
}.

Definition search_by_text (self : engine) (valid : list bool)
           (text : Text) (k : nat) : result (list nat) :=
  let k := k `min` count_valid valid in
  let sim :=
    if use_embedding self
    then similarity (embeddings self) valid (embed_text self text)
    else similarity (encodings self) valid (encode_text self text) in
  topk k sim.

Definition search_by_image (self : engine) (valid : list bool)
           (image : Image) (k : nat) : result (list nat) :=
  let sim :=
    if use_embedding self
    then similarity (embeddings self) valid (embed_image self image)
    else similarity (encodings self) valid (encode_image self image) in
  topk k sim.

(** *** The callers in ArtSearch.py *)

(** The intersection of all [search_results], taken as sets; a list here. *)
Definition intersection (ls : list (list Z)) : list Z :=
  match ls with
  | [] => []
  | l :: ls' => filter (λ x, Forall (λ l', x ∈ l') ls') l
  end.

(** [restrict_search]: [search_results] holds, per filter with a
    non-empty value, the ids its METASearch returned; they come out of an
    int64 tensor, so each fits 64 bits and an id out of range is an
    IndexError. *)
Definition restrict_search (search_results : list (list Z))
  : M ArtSearch.state (list bool) :=
  (s ⇐ get ;;
   p0 ⇐ lift IndexError (ArtSearch.positive s !! 0) ;;
   let search_results := filter (λ r, r ≠ []) search_results in
   if decide (search_results ≠ []) then
     let constraints := intersection search_results in
     (* an empty index list becomes a float tensor, which cannot index *)
     (if decide (constraints = []) then raise IndexError else ret tt) ;;;
     valid ⇐ lift IndexError
               (Tensor.mark_each (Tensor.zeros (length p0)) constraints) ;;
     let valid := zip_with andb (negb <$> p0) valid in
     n0 ⇐ lift IndexError (ArtSearch.negative s !! 0) ;;
     ret (zip_with andb (negb <$> n0) valid)
   else
     n0 ⇐ lift IndexError (ArtSearch.negative s !! 0) ;;
     ret (zip_with andb (negb <$> p0) (negb <$> n0)))%py.

Definition lift_result {S A} (r : result A) : M S A :=
  match r with Ok a => ret a | Raise e => raise e end.

Definition text_search (self : engine) (search_text : Text)
           (filters : list (list Z)) : M ArtSearch.state (list nat) :=
  (valid ⇐ restrict_search filters ;;
   s ⇐ get ;;
   lift_result (search_by_text self valid search_text (ArtSearch.paths_len s)))%py.

Definition image_search (self : engine) (image : Image)
           (filters : list (list Z)) : M ArtSearch.state (list nat) :=
  (valid ⇐ restrict_search filters ;;
   s ⇐ get ;;
   lift_result (search_by_image self valid image (ArtSearch.paths_len s)))%py.

End Engine.

Arguments mkEngine {Text Image}.
Arguments encodings {Text Image}.
Arguments embeddings {Text Image}.
Arguments use_embedding {Text Image}.
Arguments search_by_text {Text Image}.
Arguments search_by_image {Text Image}.
Arguments text_search {Text Image}.
Arguments image_search {Text Image}.

End SearchEngine.

(* ===================================================================== *)
(** ** Embedding.py: the gated correction model and its training *)
(* ===================================================================== *)

(** The gate uses [exp] and the normalisation a square root, so float tensors
    are modelled by real numbers here: the model is the exact-arithmetic
    reading of the code.  The program computes in float32, where every
    operation rounds, a product can overflow and an empty mean is nan: a
    bound or an equality of values proved here holds for the program up to
    rounding only (its gate for a row equal to a centre row can come out a
    few ulps above or below 1), and the theorems about values say that they
    are statements of exact real arithmetic. *)

Module Embedding.

Local Open Scope R_scope.

Definition vec : Type := list R.
Definition matrix : Type := list vec.

Definition sum (l : list R) : R := foldr Rplus 0 l.

(** [x.mean()].  On an empty tensor torch returns nan, which the reals do
    not have ([0 / 0] is 0 here): theorems about a mean take the tensor to be
    non-empty. *)
Definition mean (l : list R) : R := sum l / INR (length l).

Definition dot (x y : vec) : R := sum (zip_with Rmult x y).

(** [x.norm(2)] of a row. *)
Definition norm (x : vec) : R := sqrt (dot x x).

(** [fn.normalize(x, dim=-1)] with its default [eps = 1e-12]: each row is
    divided by [max(norm, eps)]. *)
Definition eps : R := 1e-12.
Definition normalize_row (x : vec) : vec :=
  map (λ c, c / Rmax (norm x) eps) x.
Definition normalize (m : matrix) : matrix := map normalize_row m.

(** [torch.mm(a, b.transpose(0, 1))]: entry (i, j) is row i of [a] times
    row j of [b]. *)
Definition mm_t (a b : matrix) : matrix :=
  map (λ x, map (λ c, dot x c) b) a.

(** [x.max()] over all entries; RuntimeError on an empty tensor. *)
Definition tensor_max (l : list R) : result R :=
  match l with
  | [] => Raise RuntimeError
  | x :: l' => Ok (foldl Rmax x l')
  end.

(** [x.max(dim=0)[0]] of a 1-d tensor; IndexError on an empty one. *)
Definition max_dim0 (l : list R) : result R :=
  match l with
  | [] => Raise IndexError
  | x :: l' => Ok (foldl Rmax x l')
  end.

(** [nn.Linear]: [x @ W.T + b]. *)
Definition linear (W : matrix) (b : vec) (x : vec) : vec :=
  zip_with Rplus (map (λ w, dot w x) W) b.

(** [torch.eye(n)] *)
Definition eye (n : nat) : matrix :=
  map (λ i, map (λ j, if decide (i = j) then 1 else 0) (seq 0 n)) (seq 0 n).

(** [fn.mse_loss(a, b)]: mean of the squared differences of all entries. *)
Definition mse_loss (a b : list R) : R :=
  mean (zip_with (λ x y, (x - y) * (x - y)) a b).

Record LocalSplitMLP : Type := mkModel {
  center : list matrix;          (* self.center *)
  mlp_image_weight : matrix;     (* self.mlp_image[-1].weight *)
  mlp_image_bias : vec;
  mlp_text_weight : matrix;      (* self.mlp_text[-1].weight *)
  mlp_text_bias : vec;
}.

(** [LocalSplitMLP.__init__]: identity maps, no centres. *)
Definition init (dim : nat) : LocalSplitMLP :=
  mkModel [] (eye dim) (replicate dim 0) (eye dim) (replicate dim 0).

(** [w.shape[-1]] *)
Definition last_dim (w : matrix) : nat :=
  match w with [] => 0%nat | row :: _ => length row end.

Definition regularization (self : LocalSplitMLP) : R :=
  let dim_image := last_dim (mlp_image_weight self) in
  let dim_text := last_dim (mlp_text_weight self) in
  (mse_loss (concat (mlp_image_weight self)) (concat (eye dim_image))
   + mse_loss (mlp_image_bias self) (replicate dim_image 0)
   + mse_loss (concat (mlp_text_weight self)) (concat (eye dim_text))
   + mse_loss (mlp_text_bias self) (replicate dim_text 0)) * 1e4.

(** [weight]: one scalar for the whole input: the maximum, over every row
    of [inp] and every centre row, of [exp(-10 * (1 - cosine))]. *)
Definition weight (self : LocalSplitMLP) (inp : matrix) : result R :=
  let a := normalize inp in
  if decide (0 < length (center self))%nat then
    let b := normalize (concat (center self)) in
    let dist := map (map (λ c, 1 - c)) (mm_t a b) in
    tensor_max (concat (map (map (λ d, exp (-10 * d))) dist))
  else Ok 0.

(** [weight * out + (1 - weight) * inp], the scalar broadcast over all
    entries. *)
Definition blend (w : R) (out inp : matrix) : matrix :=
  zip_with (zip_with (λ o x, w * o + (1 - w) * x)) out inp.

(** As in the source, [encode_text] runs [mlp_image], and [encode_image]
    runs [mlp_text]. *)
Definition encode_text (self : LocalSplitMLP) (inp : matrix) : result (matrix * R) :=
  w ← weight self inp;
  let out := normalize (map (linear (mlp_image_weight self) (mlp_image_bias self)) inp) in
  let out := blend w out inp in
  Ok (normalize out, regularization self).

Definition encode_image (self : LocalSplitMLP) (inp : matrix) : result (matrix * R) :=
  w ← weight self inp;
  let out := normalize (map (linear (mlp_text_weight self) (mlp_text_bias self)) inp) in
  let out := blend w out inp in
  Ok (normalize out, regularization self).

(** *** CenterMarginLoss *)

Definition relu (x : R) : R := Rmax 0 x.

(** [CenterMarginLoss(margin).forward(center, pos, neg)] for a 1-d
    [center]: [center @ pos.transpose(0, 1)] holds one product per row. *)
Definition CenterMarginLoss (margin : R) (center : vec) (pos neg : matrix) : result R :=
  let pos_dists := map (λ p, 1 - dot center p) pos in
  let neg_dists := map (λ q, 1 - dot center q) neg in
  hardest ← max_dim0 pos_dists;
  let neg := map (λ d, relu (hardest - d + margin)) neg_dists in
  Ok (mean pos_dists + mean neg).

(** *** The claim's formula for the loss, written from the specification *)

Definition d (x y : vec) : R := 1 - dot x y.

Fixpoint max_over {A} (f : A → R) (a : A) (l : list A) : R :=
  match l with
  | [] => f a
  | b :: l' => Rmax (f a) (max_over f b l')
  end.

Definition margin_loss_spec (margin : R) (c : vec) (P Q : matrix) : R :=
  match P with
  | [] => 0
  | p0 :: P' =>
      mean (map (λ p, d c p) P)
      + mean (map (λ q, relu (max_over (d c) p0 P' - d c q + margin)) Q)
  end.

(** The largest cosine similarity of [e] to the centre rows [c :: cs]. *)
Definition cosine (x y : vec) : R := dot (normalize_row x) (normalize_row y).
Definition max_cosine (e : vec) (c : vec) (cs : matrix) : R :=
  max_over (cosine e) c cs.

(** The gate of one row [y] against one centre row [z]. *)
Definition pair_gate (y z : vec) : R := exp (-10 * (1 - cosine y z)).

(** *** Embedder *)

Section Training.

(** Tokenised group names, the frozen text encoder (its output has one
    row), and the optimiser with its state.  The optimiser is abstract:
    it receives the loss as a function of the model, which is what
    [zero_grad]/[backward]/[step] consume. *)
Variables (Tokens OptState : Type).
Variable encoder_encode_text : Tokens → matrix.
Variable optimizer_step :
  (LocalSplitMLP → result R) → LocalSplitMLP → OptState → LocalSplitMLP * OptState.

Record Embedder : Type := mkEmbedder {
  embedder : LocalSplitMLP;
  optimizer : OptState;
}.

(** [self.loss_func = CenterMarginLoss(0.1)] *)
Definition loss_func : vec → matrix → matrix → result R :=
  CenterMarginLoss 0.1.

Definition Embedder_encode_text (text : Tokens) : matrix :=
  normalize (encoder_encode_text text).

Definition refine_image_embedding (m : LocalSplitMLP) (embedding : matrix) :=
  encode_image m embedding.
Definition refine_text_embedding (m : LocalSplitMLP) (embedding : matrix) :=
  encode_text m embedding.

(** [update_data]: per group, its positive examples and then its encoded
    name; the list replaces [self.embedder.center]. *)
Fixpoint build_centers (group_embeddings : list Tokens) (pos_example : list matrix)
  : result (list matrix) :=
  match group_embeddings with
  | [] => Ok []
  | g :: gs =>
      match pos_example with
      | [] => Raise IndexError
      | p :: ps =>
          rest ← build_centers gs ps;
          Ok (p :: normalize (Embedder_encode_text g) :: rest)
      end
  end.

Definition with_center (c : list matrix) (m : LocalSplitMLP) : LocalSplitMLP :=
  mkModel c (mlp_image_weight m) (mlp_image_bias m)
          (mlp_text_weight m) (mlp_text_bias m).

Definition update_data (group_embeddings : list Tokens)
           (pos_example neg_example : list matrix) : M Embedder unit :=
  match build_centers group_embeddings pos_example with
  | Ok c => modify (λ e, mkEmbedder (with_center c (embedder e)) (optimizer e))
  | Raise e => raise e
  end.

(** The loss of group [j] as a function of the model. *)
Definition group_loss (tokens : Tokens) (pos neg : matrix)
           (m : LocalSplitMLP) : result R :=
  embedding_pos ← refine_image_embedding m pos;
  embedding_neg ← refine_image_embedding m neg;
  embedding_center ←
    refine_text_embedding m (normalize (Embedder_encode_text tokens));
  match embedding_center.1 with
  | [] => Raise IndexError
  | center0 :: _ =>
      margin_loss ← loss_func center0 embedding_pos.1 embedding_neg.1;
      Ok (margin_loss + embedding_center.2)
  end.

(** The body of the loop of [optimize_embedding] for index [j]. *)
Definition train_group (group_embeddings : list Tokens)
           (pos_example neg_example : list matrix) (j : nat) : M Embedder unit :=
  (pos ⇐ lift IndexError (pos_example !! j) ;;
   if decide (length pos = 0%nat) then ret tt else
   neg ⇐ lift IndexError (neg_example !! j) ;;
   if decide (length neg = 0%nat) then ret tt else
   tokens ⇐ lift IndexError (group_embeddings !! j) ;;
   e ⇐ get ;;
   match group_loss tokens pos neg (embedder e) with
   | Raise err => raise err
   | Ok _ =>
       modify (λ e,
         let r := optimizer_step (group_loss tokens pos neg)
                                 (embedder e) (optimizer e) in
         mkEmbedder r.1 r.2)
   end)%py.

Definition optimize_embedding (group_embeddings : list Tokens)
           (pos_example neg_example : list matrix) : M Embedder unit :=
  for_each (seq 0 (length group_embeddings))
           (train_group group_embeddings pos_example neg_example).

(** One round of the loop of [ArtSearch.update_latent], up to the
    recomputation of the refined table: the training data is reloaded
    when the canvas changed, then the model is trained. *)
Definition update_latent_step (data_changed : bool)
           (group_embeddings : list Tokens)
           (pos_example neg_example : list matrix) : M Embedder unit :=
  ((if data_changed
    then update_data group_embeddings pos_example neg_example
    else ret tt) ;;;
   optimize_embedding group_embeddings pos_example neg_example)%py.

(** The trainable parameters of the model. *)
Definition parameters (m : LocalSplitMLP) : matrix * vec * matrix * vec :=
  (mlp_image_weight m, mlp_image_bias m, mlp_text_weight m, mlp_text_bias m).

(** [SearchEngine.update_embedding]: the refined table is the image
    encoding of the whole base table, in one call. *)
Definition update_embedding (e : Embedder) (encodings : matrix) : result matrix :=
  fst <$> refine_image_embedding (embedder e) encodings.

(** Group [j] has no positive or no negative example. *)
Definition degenerate (pos_example neg_example : list matrix) (j : nat) : Prop :=
  ∃ pos neg, pos_example !! j = Some pos ∧ neg_example !! j = Some neg
             ∧ (pos = [] ∨ neg = []).

End Training.

Arguments mkEmbedder {OptState}.
Arguments embedder {OptState}.
Arguments optimizer {OptState}.
Arguments update_embedding {OptState}.
Arguments train_group {Tokens OptState}.
Arguments optimize_embedding {Tokens OptState}.
Arguments update_data {Tokens OptState}.
Arguments update_latent_step {Tokens OptState}.
Arguments build_centers {Tokens}.

Arguments normalize_row : simpl never.

End Embedding.

(* ===================================================================== *)
(** ** Predicates on the relevance state and on payloads *)
(* ===================================================================== *)

Module Shape.

(** No item is both positive and negative on the canvas. *)
Definition exclusive (s : ArtSearch.state) : Prop :=
  ∀ j, ¬ (Tensor.entry (ArtSearch.positive s) 0 j = Some true
          ∧ Tensor.entry (ArtSearch.negative s) 0 j = Some true).

(** An id list as [serialize] writes it: strictly increasing ids of
    [0 .. N-1]. *)
Definition canonical (N : nat) (l : list Z) : Prop :=
  StronglySorted Z.lt l ∧ Forall (λ i, 0 ≤ i < Z.of_nat N)%Z l.

(** The three marking methods. *)
Definition marking_methods : list (Z → M ArtSearch.state unit) :=
  [ArtSearch.setImagePositive; ArtSearch.setImageNegative; ArtSearch.setImageNeutral].

(** In a ranking, [x] may stand before [y]: its score is at least as large. *)
Definition ranks_before (x y : nat * Q) : Prop := (snd y <= snd x)%Q.

(** The centre list is usable by the gate: empty, or with at least one row. *)
Definition centres_usable (m : Embedding.LocalSplitMLP) : Prop :=
  Embedding.center m = [] ∨ concat (Embedding.center m) ≠ [].

(** [encodings[mask]] when the mask fits: the rows whose entry is [True]. *)
Definition masked_rows {A} (encodings : list A) (mask : list bool) : list A :=
  fst <$> filter (λ rb, rb.2 = true) (zip encodings mask).

(** The centre list of aligned training data: per group, its positive
    examples and then the normalised encoding of its name. *)
Definition centres_of {Tokens} (encoder_encode_text : Tokens → Embedding.matrix)
           (pos : list Embedding.matrix) (ge : list Tokens) : list Embedding.matrix :=
  concat (zip_with (λ p g, [p; Embedding.normalize
                                 (Embedding.Embedder_encode_text _ encoder_encode_text g)])
                   pos ge).

(** Row 0 of a tensor marks item [k]. *)
Definition marked (x : Tensor.t) (k : nat) : Prop :=
  Tensor.entry x 0 k = Some true.

End Shape.

(* ===================================================================== *)
(** ** SearchEngine.py: loading the training data and refining the table *)
(* ===================================================================== *)

(** The training side of [SearchEngine], over the real-number model of the
    correction model. *)

Module Refinement.

Import Embedding.

Section Engine.

(** Group names, their tokenisation, the frozen text encoder and the
    optimiser. *)
Variables (Name Tokens OptState : Type).
Variable tokenize : Name → Tokens.
Variable encoder_encode_text : Tokens → matrix.
Variable optimizer_step :
  (LocalSplitMLP → result R) → LocalSplitMLP → OptState → LocalSplitMLP * OptState.

Record engine : Type := mkEngine {
  se_encodings : matrix;             (* self.encodings *)
  se_embeddings : matrix;            (* self.embeddings *)
  se_embedder : Embedder OptState;   (* self.embedder *)
  se_group_embeddings : list Tokens; (* self.group_embeddings *)
  se_pos_example : list matrix;      (* self.pos_example *)
  se_neg_example : list matrix;      (* self.neg_example *)
  se_data_changed : bool;            (* self.data_changed *)
}.

Definition set_examples (ge : list Tokens) (pos neg : list matrix) (e : engine) : engine :=
  mkEngine (se_encodings e) (se_embeddings e) (se_embedder e) ge pos neg
           (se_data_changed e).
Definition set_embedder (emb : Embedder OptState) (e : engine) : engine :=
  mkEngine (se_encodings e) (se_embeddings e) emb (se_group_embeddings e)
           (se_pos_example e) (se_neg_example e) (se_data_changed e).
Definition set_embeddings (t : matrix) (e : engine) : engine :=
  mkEngine (se_encodings e) t (se_embedder e) (se_group_embeddings e)
           (se_pos_example e) (se_neg_example e) (se_data_changed e).
Definition set_data_changed (b : bool) (e : engine) : engine :=
  mkEngine (se_encodings e) (se_embeddings e) (se_embedder e)
           (se_group_embeddings e) (se_pos_example e) (se_neg_example e) b.

(** A method of [self.embedder] run on the engine. *)
Definition on_embedder {A} (m : M (Embedder OptState) A) : M engine A :=
  λ e, let r := m (se_embedder e) in (r.1, set_embedder r.2 e).

(** [encodings[mask]] for a boolean mask: the rows whose entry is [True];
    IndexError unless the mask has one entry per row. *)
Definition select_rows (encodings : matrix) (mask : list bool) : option matrix :=
  if decide (length mask = length encodings)
  then Some (fst <$> filter (λ rb, rb.2 = true) (zip encodings mask))
  else None.

(** The body of the loop of [update_group_embeddings] for row [i]. *)
Definition load_group (positive negative : Tensor.t) (group_names : list Name)
           (i : nat) : M engine unit :=
  if decide (i = 0)%nat then ret tt else
  (e ⇐ get ;;
   prow ⇐ lift IndexError (positive !! i) ;;
   pos ⇐ lift IndexError (select_rows (se_encodings e) prow) ;;
   modify (λ e, set_examples (se_group_embeddings e)
                             (se_pos_example e ++ [pos]) (se_neg_example e) e) ;;;
   nrow ⇐ lift IndexError (negative !! i) ;;
   neg ⇐ lift IndexError (select_rows (se_encodings e) nrow) ;;
   modify (λ e, set_examples (se_group_embeddings e)
                             (se_pos_example e) (se_neg_example e ++ [neg]) e) ;;;
   name ⇐ lift IndexError (group_names !! (i - 1)%nat) ;;
   modify (λ e, set_examples (se_group_embeddings e ++ [tokenize name])
                             (se_pos_example e) (se_neg_example e) e))%py.

Definition update_group_embeddings (positive negative : Tensor.t)
           (group_names : list Name) : M engine unit :=
  (modify (set_examples [] [] []) ;;;
   for_each (seq 0 (length positive)) (load_group positive negative group_names) ;;;
   e ⇐ get ;;
   on_embedder (update_data encoder_encode_text (se_group_embeddings e)
                            (se_pos_example e) (se_neg_example e)) ;;;
   modify (set_data_changed false))%py.

Definition optimize_embedding : M engine unit :=
  (e ⇐ get ;;
   on_embedder (Embedding.optimize_embedding encoder_encode_text optimizer_step
                  (se_group_embeddings e) (se_pos_example e) (se_neg_example e)))%py.

Definition update_embedding : M engine unit :=
  (e ⇐ get ;;
   match Embedding.update_embedding (se_embedder e) (se_encodings e) with
   | Ok t => modify (set_embeddings t)
   | Raise err => raise err
   end)%py.

(** *** The callers in ArtSearch.py *)

(** [content_change] *)
Definition content_change : M engine unit := modify (set_data_changed true).

Variable getName : ArtSearch.Group → Name.

(** The arguments both callers pass: the first [len(groups) + 1] rows and
    the names of the groups. *)
Definition reload (s : ArtSearch.state) : M engine unit :=
  update_group_embeddings
    (take (S (length (ArtSearch.groups s))) (ArtSearch.positive s))
    (take (S (length (ArtSearch.groups s))) (ArtSearch.negative s))
    (getName <$> ArtSearch.groups s).

(** One round of the loop of [update_latent] for the engine. *)
Definition update_latent_round (s : ArtSearch.state) : M engine unit :=
  (e ⇐ get ;;
   (if se_data_changed e then reload s else ret tt) ;;;
   optimize_embedding ;;;
   update_embedding)%py.

(** [update] *)
Definition update (s : ArtSearch.state) : M engine unit :=
  (reload s ;;; optimize_embedding ;;; update_embedding)%py.

(** One optimiser step on the loss of one group. *)
Definition step_group (g : Tokens * (matrix * matrix)) (e : Embedder OptState)
  : Embedder OptState :=
  let r := optimizer_step (group_loss _ encoder_encode_text g.1 g.2.1 g.2.2)
                          (embedder e) (optimizer e) in
  mkEmbedder r.1 r.2.

(** The groups the training loop steps on: those with a positive and a
    negative example. *)
Definition trained_groups (group_embeddings : list Tokens)
           (pos_example neg_example : list matrix)
  : list (Tokens * (matrix * matrix)) :=
  filter (λ g, g.2.1 ≠ [] ∧ g.2.2 ≠ [])
         (zip group_embeddings (zip pos_example neg_example)).

End Engine.

Arguments mkEngine {Tokens OptState}.
Arguments se_encodings {Tokens OptState}.
Arguments se_embeddings {Tokens OptState}.
Arguments se_embedder {Tokens OptState}.
Arguments se_group_embeddings {Tokens OptState}.
Arguments se_pos_example {Tokens OptState}.
Arguments se_neg_example {Tokens OptState}.
Arguments se_data_changed {Tokens OptState}.
Arguments update_group_embeddings {Name Tokens OptState}.
Arguments load_group {Name Tokens OptState}.
Arguments optimize_embedding {Tokens OptState}.
Arguments update_embedding {Tokens OptState}.
Arguments content_change {Tokens OptState}.
Arguments reload {Name Tokens OptState}.
Arguments update_latent_round {Name Tokens OptState}.
Arguments update {Name Tokens OptState}.
Arguments step_group {Tokens OptState}.
Arguments trained_groups {Tokens}.
Arguments on_embedder {Tokens OptState A}.
Arguments set_examples {Tokens OptState}.
Arguments set_embedder {Tokens OptState}.
Arguments set_embeddings {Tokens OptState}.
Arguments set_data_changed {Tokens OptState}.

End Refinement.

(* ===================================================================== *)
(** ** Facts about tensor indexing *)
(* ===================================================================== *)

Section TensorFacts.

Import Tensor.

Lemma norm_index_nat (n k : nat) :
  k < n → norm_index n (Z.of_nat k) = Some k.
Proof.
  intros Hk. unfold norm_index.
  rewrite decide_True by lia. by rewrite Nat2Z.id.
Qed.


Lemma norm_index_None (n : nat) (i : Z) :
  norm_index n i = None ↔ (i < - Z.of_nat n ∨ Z.of_nat n ≤ i)%Z.
Proof.
  unfold norm_index. repeat case_decide; split; (congruence || lia).
Qed.

Lemma row_set_nat (row : list bool) (k : nat) (v : bool) :
  k < length row → row_set row (Z.of_nat k) v = Some (<[k := v]> row).
Proof. intros Hk. unfold row_set. by rewrite norm_index_nat. Qed.

Lemma row_set_None (row : list bool) (i : Z) (v : bool) :
  row_set row i v = None ↔ norm_index (length row) i = None.
Proof. unfold row_set. destruct (norm_index _ _); naive_solver. Qed.

Lemma row_set_length (row row' : list bool) (i : Z) (v : bool) :
  row_set row i v = Some row' → length row' = length row.
Proof.
  unfold row_set. destruct (norm_index _ _); simpl; [|done].
  intros [= <-]. apply length_insert.
Qed.

Lemma set2_row0 (row : list bool) (rest : t) (i : Z) (v : bool) :
  set2 (row :: rest) 0 i v = (λ r, r :: rest) <$> row_set row i v.
Proof.
  unfold set2, norm_index. rewrite decide_True by (simpl; lia). simpl.
  by destruct (row_set row i v).
Qed.

(** Selecting every row but [ind] is deleting row [ind]. *)
Lemma select_all_rows (pre arr : t) (ind : nat) :
  ind < length pre →
  omap (λ i, (pre ++ arr) !! i) (filter (λ i, i ≠ ind) (seq (length pre) (length arr))) = arr.
Proof.
  revert pre. induction arr as [|x arr IH]; intros pre Hlt; [done|].
  simpl. rewrite filter_cons_True by lia. simpl.
  rewrite list_lookup_middle by done. f_equal.
  specialize (IH (pre ++ [x])). rewrite <- app_assoc, length_app in IH.
  simpl in IH. rewrite Nat.add_1_r in IH. apply IH. lia.
Qed.

Lemma select_skip_rows (pre arr : t) (ind : nat) :
  omap (λ i, (pre ++ arr) !! i)
       (filter (λ i, i ≠ length pre + ind) (seq (length pre) (length arr)))
  = delete ind arr.
Proof.
  revert pre ind. induction arr as [|x arr IH]; intros pre ind; [done|].
  simpl. destruct ind as [|ind].
  - rewrite filter_cons_False by lia. rewrite Nat.add_0_r.
    pose proof (select_all_rows (pre ++ [x]) arr (length pre)) as H.
    rewrite <- app_assoc, length_app in H. simpl in H.
    rewrite Nat.add_1_r in H. apply H. lia.
  - rewrite filter_cons_True by lia. simpl.
    rewrite list_lookup_middle by done. f_equal.
    specialize (IH (pre ++ [x]) ind). rewrite <- app_assoc, length_app in IH.
    simpl in IH. rewrite Nat.add_1_r in IH.
    replace (length pre + S ind) with (S (length pre) + ind) by lia. apply IH.
Qed.

Lemma delete_row_delete (arr : t) (ind : nat) :
  delete_row arr ind = delete ind arr.
Proof. apply (select_skip_rows [] arr ind). Qed.


End TensorFacts.

(* ===================================================================== *)
(** ** Facts about the relevance state *)
(* ===================================================================== *)

Section ArtSearchFacts.

Import Tensor ArtSearch.

Lemma set_positive_id (s : state) : set_positive (positive s) s = s.
Proof. by destruct s. Qed.
Lemma set_negative_id (s : state) : set_negative (negative s) s = s.
Proof. by destruct s. Qed.

Lemma write_positive0_row (s : state) (row : list bool) (rest : t) (i : Z) (v : bool) :
  positive s = row :: rest →
  write_positive0 i v s =
    match row_set row i v with
    | Some row' => (Ok tt, set_positive (row' :: rest) s)
    | None => (Raise (index_exn i), s)
    end.
Proof.
  intros Hp. unfold write_positive0, bind, get. rewrite Hp, set2_row0.
  by destruct (row_set row i v).
Qed.

Lemma write_negative0_row (s : state) (row : list bool) (rest : t) (i : Z) (v : bool) :
  negative s = row :: rest →
  write_negative0 i v s =
    match row_set row i v with
    | Some row' => (Ok tt, set_negative (row' :: rest) s)
    | None => (Raise (index_exn i), s)
    end.
Proof.
  intros Hp. unfold write_negative0, bind, get. rewrite Hp, set2_row0.
  by destruct (row_set row i v).
Qed.

(** The loop [for index in l: self.positive[0][index] = True]. *)
Lemma for_each_positive_ok (l : list Z) (s : state) (row row' : list bool) (rest : t) :
  positive s = row :: rest →
  mark_each row l = Some row' →
  for_each l (λ index, write_positive0 index true) s
  = (Ok tt, set_positive (row' :: rest) s).
Proof.
  revert s row. induction l as [|i l IH]; intros s row Hp Hm; simpl in *.
  - injection Hm as <-. unfold ret. by rewrite <- Hp, set_positive_id.
  - unfold bind. rewrite (write_positive0_row s row rest) by done.
    destruct (row_set row i true) as [r1|] eqn:Hr; [|done]. simpl in Hm.
    rewrite (IH _ r1) by done. by destruct s.
Qed.

Lemma for_each_negative_ok (l : list Z) (s : state) (row row' : list bool) (rest : t) :
  negative s = row :: rest →
  mark_each row l = Some row' →
  for_each l (λ index, write_negative0 index true) s
  = (Ok tt, set_negative (row' :: rest) s).
Proof.
  revert s row. induction l as [|i l IH]; intros s row Hp Hm; simpl in *.
  - injection Hm as <-. unfold ret. by rewrite <- Hp, set_negative_id.
  - unfold bind. rewrite (write_negative0_row s row rest) by done.
    destruct (row_set row i true) as [r1|] eqn:Hr; [|done]. simpl in Hm.
    rewrite (IH _ r1) by done. by destruct s.
Qed.

(** The same loop over a list whose first out-of-range index is [bad]. *)
Lemma for_each_positive_err (pre post : list Z) (bad : Z) (s : state)
      (row row' : list bool) (rest : t) :
  positive s = row :: rest →
  mark_each row pre = Some row' →
  row_set row' bad true = None →
  for_each (pre ++ bad :: post) (λ index, write_positive0 index true) s
  = (Raise (index_exn bad), set_positive (row' :: rest) s).
Proof.
  revert s row. induction pre as [|i l IH]; intros s row Hp Hm Hbad; simpl in *.
  - injection Hm as <-. unfold bind.
    rewrite (write_positive0_row s row rest), Hbad by done.
    by rewrite <- Hp, set_positive_id.
  - unfold bind. rewrite (write_positive0_row s row rest) by done.
    destruct (row_set row i true) as [r1|] eqn:Hr; [|done]. simpl in Hm.
    rewrite (IH _ r1) by done. by destruct s.
Qed.

Lemma for_each_negative_err (pre post : list Z) (bad : Z) (s : state)
      (row row' : list bool) (rest : t) :
  negative s = row :: rest →
  mark_each row pre = Some row' →
  row_set row' bad true = None →
  for_each (pre ++ bad :: post) (λ index, write_negative0 index true) s
  = (Raise (index_exn bad), set_negative (row' :: rest) s).
Proof.
  revert s row. induction pre as [|i l IH]; intros s row Hp Hm Hbad; simpl in *.
  - injection Hm as <-. unfold bind.
    rewrite (write_negative0_row s row rest), Hbad by done.
    by rewrite <- Hp, set_negative_id.
  - unfold bind. rewrite (write_negative0_row s row rest) by done.
    destruct (row_set row i true) as [r1|] eqn:Hr; [|done]. simpl in Hm.
    rewrite (IH _ r1) by done. by destruct s.
Qed.

Lemma mark_each_length (l : list Z) (row row' : list bool) :
  mark_each row l = Some row' → length row' = length row.
Proof.
  revert row. induction l as [|i l IH]; intros row; simpl.
  - by intros [= <-].
  - destruct (row_set row i true) as [r1|] eqn:Hr; [|done]. simpl.
    intros ->%IH. by eapply row_set_length.
Qed.

(** In-range indices always replay. *)
Lemma mark_each_in_range (l : list Z) (row : list bool) :
  Forall (λ i, norm_index (length row) i ≠ None) l →
  is_Some (mark_each row l).
Proof.
  revert row. induction l as [|i l IH]; intros row Hall; simpl; [by eexists|].
  apply Forall_cons in Hall as [Hi Hall].
  destruct (row_set row i true) as [r1|] eqn:Hr.
  - simpl. apply IH. by rewrite (row_set_length _ _ _ _ Hr).
  - by apply row_set_None in Hr.
Qed.

(** Replaying [nonzero row] over the all-false row gives [row] back. *)
Lemma mark_each_nonzero_from (pre row : list bool) :
  mark_each (pre ++ zeros (length row)) (nonzero_from (length pre) row)
  = Some (pre ++ row).
Proof.
  revert pre. induction row as [|b row IH]; intros pre; simpl.
  - done.
  - specialize (IH (pre ++ [b])).
    rewrite <- !app_assoc, length_app, Nat.add_1_r in IH. simpl in IH.
    destruct b; simpl; [|done].
    rewrite row_set_nat by (rewrite length_app; simpl; lia). simpl.
    replace (length pre) with (length pre + 0) at 1 by lia.
    by rewrite insert_app_r.
Qed.

Lemma mark_each_nonzero (row : list bool) :
  mark_each (zeros (length row)) (nonzero row) = Some row.
Proof. apply (mark_each_nonzero_from [] row). Qed.

End ArtSearchFacts.

Section ArtSearchClaims.

Import Tensor ArtSearch.

Lemma wf_rows (s : state) :
  wf s →
  ∃ p0 prest n0 nrest,
    positive s = p0 :: prest ∧ negative s = n0 :: nrest
    ∧ length p0 = paths_len s ∧ length n0 = paths_len s.
Proof.
  intros [Hp Hn Hpc Hnc].
  destruct (positive s) as [|p0 prest]; [done|].
  destruct (negative s) as [|n0 nrest]; [done|].
  apply Forall_cons in Hpc as [? _]. apply Forall_cons in Hnc as [? _].
  by exists p0, prest, n0, nrest.
Qed.


Lemma canvas_rows_cons (s : state) (p0 n0 : list bool) :
  canvas_rows s p0 n0 →
  ∃ prest nrest, positive s = p0 :: prest ∧ negative s = n0 :: nrest.
Proof.
  intros [Hp Hn _ _].
  destruct (positive s) as [|p prest]; [done|].
  destruct (negative s) as [|n nrest]; [done|].
  injection Hp as ->. injection Hn as ->. by exists prest, nrest.
Qed.

(** The two writes of a [setImage*] method, run on a state with a canvas row. *)
Lemma set_image_run (s : state) (p0 n0 : list bool) (prest nrest : t)
      (k : nat) (vp vn : bool) :
  positive s = p0 :: prest → negative s = n0 :: nrest →
  k < length p0 → k < length n0 →
  bind (write_positive0 (Z.of_nat k) vp) (λ _, write_negative0 (Z.of_nat k) vn) s
  = (Ok tt, mkState (paths_len s) (groups s)
                    (<[k := vp]> p0 :: prest) (<[k := vn]> n0 :: nrest)).
Proof.
  intros Hp Hn Hkp Hkn. unfold bind.
  rewrite (write_positive0_row s p0 prest), row_set_nat by done.
  rewrite (write_negative0_row _ n0 nrest), row_set_nat by done.
  done.
Qed.

Lemma set_image_frame (s : state) (p0 n0 : list bool) (prest nrest : t)
      (k : nat) (vp vn : bool) :
  positive s = p0 :: prest → negative s = n0 :: nrest →
  same_except_item k s
    (mkState (paths_len s) (groups s)
             (<[k := vp]> p0 :: prest) (<[k := vn]> n0 :: nrest)).
Proof.
  intros Hp Hn. split; simpl; rewrite ?Hp, ?Hn; simpl; try done.
  - by intros [|g].
  - by intros [|g].
  - intros j Hj. unfold entry. simpl. by rewrite list_lookup_insert_ne.
  - intros j Hj. unfold entry. simpl. by rewrite list_lookup_insert_ne.
  - by rewrite length_insert.
  - by rewrite length_insert.
Qed.

(** C10. Frame property of marking: for an in-range item id [i], each of
    [setImagePositive], [setImageNegative] and [setImageNeutral] returns
    normally and changes nothing but item [i]'s entries in row 0 of the
    positive and negative tensors: the entries of every other item, the
    rows of every user group, the shape of both tensors and the group list
    are as before. *)
Theorem marking_only_touches_item (s : state) (p0 n0 : list bool) (i : Z) :
  canvas_rows s p0 n0 → (0 ≤ i < Z.of_nat (paths_len s))%Z →
  (∃ s', setImagePositive i s = (Ok tt, s')
         ∧ same_except_item (Z.to_nat i) s s'
         ∧ entry (positive s') 0 (Z.to_nat i) = Some true
         ∧ entry (negative s') 0 (Z.to_nat i) = Some false)
  ∧ (∃ s', setImageNegative i s = (Ok tt, s')
         ∧ same_except_item (Z.to_nat i) s s'
         ∧ entry (positive s') 0 (Z.to_nat i) = Some false
         ∧ entry (negative s') 0 (Z.to_nat i) = Some true)
  ∧ (∃ s', setImageNeutral i s = (Ok tt, s')
         ∧ same_except_item (Z.to_nat i) s s'
         ∧ entry (positive s') 0 (Z.to_nat i) = Some false
         ∧ entry (negative s') 0 (Z.to_nat i) = Some false).
Proof.
  intros Hc Hi.
  destruct (canvas_rows_cons s p0 n0 Hc) as (prest & nrest & Hp & Hn).
  destruct Hc as [_ _ Hlp Hln].
  rewrite <- (Z2Nat.id i) by lia.
  set (k := Z.to_nat i). rewrite Nat2Z.id.
  assert (k < length p0) by lia. assert (k < length n0) by lia.
  unfold setImagePositive, setImageNegative, setImageNeutral.
  repeat split; eexists;
    (split; [by apply (set_image_run s p0 n0 prest nrest)|]);
    (split; [by apply set_image_frame|]);
    split; unfold entry; simpl; by rewrite list_lookup_insert_eq.
Qed.

Lemma marking_only_touches_item_witness :
  let s := mkState 3 [7] [[false; true; false]; [false; true; false]]
                         [[true; false; false]; [false; false; false]] in
  ∃ s', setImagePositive 2 s = (Ok tt, s') ∧ same_except_item 2 s s'.
Proof.
  intros s.
  assert (Hc : canvas_rows s [false; true; false] [true; false; false])
    by (by split).
  assert (Hi : (0 ≤ 2 < Z.of_nat (paths_len s))%Z) by (simpl; lia).
  destruct (marking_only_touches_item s _ _ 2 Hc Hi) as [(s' & Hrun & Hframe & _) _].
  exists s'. split; [exact Hrun | exact Hframe].
Defined.

(** *** Removing a group *)

Lemma list_index_remove (group : Group) (l : list Group) (i : nat) :
  list_index group l = Some i →
  l !! i = Some group ∧ list_remove group l = delete i l.
Proof.
  revert i. induction l as [|g l IH]; intros i; simpl; [done|].
  case_decide as Hg.
  - intros [= <-]. by subst.
  - destruct (list_index group l) as [k|]; simpl; [|done].
    intros [= <-]. destruct (IH k eq_refl) as [Hl Hr]. simpl.
    by rewrite Hr.
Qed.

Lemma remove_group_run (s : state) (group : Group) (i : nat) :
  list_index group (groups s) = Some i →
  remove_group group s
  = (Ok tt, mkState (paths_len s) (delete i (groups s))
                    (delete (S i) (positive s)) (delete (S i) (negative s))).
Proof.
  intros Hi. unfold remove_group, bind, get. rewrite Hi. simpl.
  unfold modify, set_groups, set_positive, set_negative. simpl.
  rewrite !delete_row_delete.
  by destruct (list_index_remove _ _ _ Hi) as [_ ->].
Qed.

(** C5. For a state that contains user group [g = i + 1] (the group object
    is listed at position [i]), [remove_group] returns normally, the number
    of groups drops by exactly one, and so does the number of rows of each
    tensor that has a row [g]; every row below [g] is unchanged, and every
    row [g' >= g] afterwards is the row that was at [g' + 1] before. *)
Theorem remove_group_shifts_later_groups (s : state) (group : Group) (i : nat) :
  list_index group (groups s) = Some i →
  ∃ s', remove_group group s = (Ok tt, s')
    ∧ S (length (groups s')) = length (groups s)
    ∧ (S i < length (positive s) → S (length (positive s')) = length (positive s))
    ∧ (S i < length (negative s) → S (length (negative s')) = length (negative s))
    ∧ (∀ g', g' < S i →
         positive s' !! g' = positive s !! g'
         ∧ negative s' !! g' = negative s !! g')
    ∧ (∀ g', S i ≤ g' →
         positive s' !! g' = positive s !! S g'
         ∧ negative s' !! g' = negative s !! S g')
    ∧ (∀ k, k < i → groups s' !! k = groups s !! k)
    ∧ (∀ k, i ≤ k → groups s' !! k = groups s !! S k).
Proof.
  intros Hi. eexists. split; [by apply remove_group_run|]. simpl.
  destruct (list_index_remove _ _ _ Hi) as [Hgi _].
  assert (i < length (groups s)) by (by eapply lookup_lt_Some).
  rewrite (length_delete (groups s)) by (apply lookup_lt_is_Some; lia).
  repeat split; try lia.
  - intros Hp.
    rewrite (length_delete (positive s)) by (apply lookup_lt_is_Some; lia). lia.
  - intros Hn.
    rewrite (length_delete (negative s)) by (apply lookup_lt_is_Some; lia). lia.
  - by apply list_lookup_delete_lt.
  - by apply list_lookup_delete_lt.
  - by apply list_lookup_delete_ge.
  - by apply list_lookup_delete_ge.
  - intros k Hk. by apply list_lookup_delete_lt.
  - intros k Hk. by apply list_lookup_delete_ge.
Qed.

Lemma remove_group_shifts_later_groups_witness :
  let s := mkState 2 [11; 12; 13]
                   [[true; false]; [true; false]; [false; true]; [false; false]]
                   [[false; true]; [false; false]; [true; false]; [true; true]] in
  ∃ s', remove_group 12 s = (Ok tt, s')
        ∧ positive s' !! 2 = Some [false; false]
        ∧ negative s' !! 2 = Some [true; true]
        ∧ groups s' = [11; 13].
Proof.
  intros s.
  assert (Hi : list_index 12 (groups s) = Some 1) by reflexivity.
  destruct (remove_group_shifts_later_groups s 12 1 Hi)
    as (s' & Hrun & _ & _ & _ & _ & Hshift & _ & _).
  exists s'. split; [exact Hrun|].
  destruct (Hshift 2 (le_n 2)) as [Hp2 Hn2].
  rewrite Hp2, Hn2. repeat split.
  vm_compute in Hrun. by injection Hrun as <-.
Defined.

(** *** Persistence *)

Lemma deserialize_ok (s : state) (data : payload) (p n : list bool) :
  mark_each (zeros (paths_len s)) (data_positive data) = Some p →
  mark_each (zeros (paths_len s)) (data_negative data) = Some n →
  deserialize data s = (Ok tt, mkState (paths_len s) [] [p] [n]).
Proof.
  intros Hp Hn. unfold deserialize, bind at 1 2 3. simpl.
  unfold bind.
  erewrite for_each_positive_ok; [|done..].
  erewrite for_each_negative_ok; [|done..].
  done.
Qed.

(** C9. Round trip of the persisted state: [serialize] returns exactly the
    nonzero positions of group 0's positive and negative rows, and
    [deserialize] of that payload -- in the state just serialised, or in any
    other state [s0] of a session over the same collection, whatever its
    marks and groups -- succeeds and leaves a state whose only rows are
    those two rows again, so an item is positive (negative) in group 0
    afterwards iff it was in the serialised state; the group list and every
    user group's rows are gone, as nothing else is in the payload. *)
Theorem serialize_deserialize_roundtrip (s s0 : state) (p0 n0 : list bool) :
  canvas_rows s p0 n0 → paths_len s0 = paths_len s →
  ∃ data s',
    serialize s = (Ok data, s)
    ∧ data = mkPayload (nonzero p0) (nonzero n0)
    ∧ deserialize data s0 = (Ok tt, s')
    ∧ bind serialize deserialize s = (Ok tt, s')
    ∧ s' = mkState (paths_len s) [] [p0] [n0]
    ∧ (∀ j, entry (positive s') 0 j = entry (positive s) 0 j)
    ∧ (∀ j, entry (negative s') 0 j = entry (negative s) 0 j).
Proof.
  intros Hc HN.
  destruct (canvas_rows_cons s p0 n0 Hc) as (prest & nrest & Hp & Hn).
  destruct Hc as [_ _ Hlp Hln].
  assert (Hser : serialize s = (Ok (mkPayload (nonzero p0) (nonzero n0)), s)).
  { unfold serialize, bind, get. by rewrite Hp, Hn. }
  assert (Hload : ∀ s1, paths_len s1 = paths_len s →
            deserialize (mkPayload (nonzero p0) (nonzero n0)) s1
            = (Ok tt, mkState (paths_len s) [] [p0] [n0])).
  { intros s1 H1. rewrite <- H1. apply deserialize_ok; simpl.
    - rewrite H1, <- Hlp. apply mark_each_nonzero.
    - rewrite H1, <- Hln. apply mark_each_nonzero. }
  exists (mkPayload (nonzero p0) (nonzero n0)), (mkState (paths_len s) [] [p0] [n0]).
  split; [exact Hser|]. split; [done|]. split; [by apply Hload|].
  split; [unfold bind at 1; rewrite Hser; by apply Hload|].
  split; [done|]. simpl. by rewrite Hp, Hn.
Qed.

Lemma serialize_deserialize_roundtrip_witness :
  let s := mkState 3 [5] [[true; false; false]; [true; false; false]]
                         [[false; false; true]; [false; true; false]] in
  let s0 := mkState 3 [8; 9] [[false; true; true]; [false; false; true];
                              [true; true; false]]
                             [[true; false; false]; [false; true; false];
                              [false; false; false]] in
  ∃ data,
    serialize s = (Ok data, s)
    ∧ deserialize data s0
      = (Ok tt, mkState 3 [] [[true; false; false]] [[false; false; true]]).
Proof.
  intros s s0.
  assert (Hc : canvas_rows s [true; false; false] [false; false; true])
    by (by split).
  destruct (serialize_deserialize_roundtrip s s0 _ _ Hc eq_refl)
    as (data & s' & Hser & _ & Hload & _ & -> & _).
  exists data. split; [exact Hser | exact Hload].
Defined.

Lemma deserialize_err_positive (s : state) (pre post neg : list Z) (bad : Z)
      (p : list bool) :
  mark_each (zeros (paths_len s)) pre = Some p →
  norm_index (paths_len s) bad = None →
  deserialize (mkPayload (pre ++ bad :: post) neg) s
  = (Raise (index_exn bad), mkState (paths_len s) [] [p] [zeros (paths_len s)]).
Proof.
  intros Hp Hbad. unfold deserialize, bind at 1 2 3. simpl.
  unfold bind.
  erewrite for_each_positive_err; [done|done|done|].
  apply row_set_None. apply mark_each_length in Hp.
  unfold zeros in Hp. by rewrite Hp, length_replicate.
Qed.

Lemma deserialize_err_negative (s : state) (pos pre post : list Z) (bad : Z)
      (p n : list bool) :
  mark_each (zeros (paths_len s)) pos = Some p →
  mark_each (zeros (paths_len s)) pre = Some n →
  norm_index (paths_len s) bad = None →
  deserialize (mkPayload pos (pre ++ bad :: post)) s
  = (Raise (index_exn bad), mkState (paths_len s) [] [p] [n]).
Proof.
  intros Hp Hn Hbad. unfold deserialize, bind at 1 2 3. simpl.
  unfold bind.
  erewrite for_each_positive_ok; [|done..].
  erewrite for_each_negative_err; [done|done|done|].
  apply row_set_None. apply mark_each_length in Hn.
  unfold zeros in Hn. by rewrite Hn, length_replicate.
Qed.

(** C6, as the code has it.  When the payload, read positives first and
    then negatives, has a first index [bad] outside [-N .. N-1],
    [deserialize] raises there -- IndexError when [bad] fits a signed
    64-bit integer, the ValueError of torch's overflow otherwise -- and the
    state it leaves is not the prior one: it is the state that loading the
    payload cut just before [bad] produces, with the group list cleared and
    both tensors reduced to one row. *)
Theorem deserialize_raises_after_partial_load
        (s : state) (pos neg pre post : list Z) (bad : Z) :
  pos ++ neg = pre ++ bad :: post →
  Forall (λ i, norm_index (paths_len s) i ≠ None) pre →
  norm_index (paths_len s) bad = None →
  ∃ s',
    deserialize (mkPayload (take (length pre) pos)
                           (take (length pre - length pos) neg)) s = (Ok tt, s')
    ∧ deserialize (mkPayload pos neg) s = (Raise (index_exn bad), s')
    ∧ (index_exn bad = IndexError ↔ fits_int64 bad)
    ∧ (index_exn bad = ValueError ↔ ¬ fits_int64 bad)
    ∧ groups s' = []
    ∧ length (positive s') = 1 ∧ length (negative s') = 1.
Proof.
  intros Heq Hpre Hbad.
  assert (Hz : length (zeros (paths_len s)) = paths_len s)
    by apply length_replicate.
  assert (Hexn : (index_exn bad = IndexError ↔ fits_int64 bad)
                 ∧ (index_exn bad = ValueError ↔ ¬ fits_int64 bad)).
  { unfold index_exn, fits_int64. case_decide; split; split; try done. }
  destruct Hexn as [Hexn1 Hexn2].
  assert (Hsplit : (∃ k, pos = pre ++ bad :: k) ∨
                   (∃ k, pre = pos ++ k ∧ neg = k ++ bad :: post)).
  { apply app_eq_inv in Heq as [(k & -> & Hk)|(k & -> & ->)].
    - destruct k as [|b k]; simpl in Hk.
      + right. exists []. rewrite !app_nil_r. by split.
      + injection Hk as <- _. left. by exists k.
    - right. by exists k. }
  destruct Hsplit as [(k & ->)|(k & -> & ->)].
  - destruct (mark_each_in_range pre (zeros (paths_len s))) as [p Hp];
      [by rewrite Hz|].
    exists (mkState (paths_len s) [] [p] [zeros (paths_len s)]).
    rewrite take_app_length.
    replace (length pre - length (pre ++ bad :: k)) with 0
      by (rewrite length_app; lia).
    rewrite take_0.
    split; [by apply deserialize_ok|].
    split; [by apply deserialize_err_positive|]. done.
  - apply Forall_app in Hpre as [Hpos Hk].
    destruct (mark_each_in_range pos (zeros (paths_len s))) as [p Hp];
      [by rewrite Hz|].
    destruct (mark_each_in_range k (zeros (paths_len s))) as [n Hn];
      [by rewrite Hz|].
    exists (mkState (paths_len s) [] [p] [n]).
    rewrite take_ge by (rewrite length_app; lia).
    replace (length (pos ++ k) - length pos) with (length k)
      by (rewrite length_app; lia).
    rewrite take_app_length.
    split; [by apply deserialize_ok|].
    split; [by apply deserialize_err_negative|]. done.
Qed.

Lemma deserialize_raises_after_partial_load_witness :
  let s := mkState 3 [4] [[false; true; false]; [false; true; false]]
                         [[false; false; false]; [false; false; false]] in
  deserialize (mkPayload [0; -1]%Z [1; 7; 2]%Z) s
  = (Raise IndexError, mkState 3 [] [[true; false; true]] [[false; true; false]])
  ∧ deserialize (mkPayload [0; -1]%Z [1; 2 ^ 63; 2]%Z) s
    = (Raise ValueError, mkState 3 [] [[true; false; true]] [[false; true; false]]).
Proof.
  intros s.
  assert (Hpre : Forall (λ i, norm_index (paths_len s) i ≠ None) [0; -1; 1]%Z)
    by (repeat constructor; discriminate).
  split.
  - assert (Heq : [0; -1]%Z ++ [1; 7; 2]%Z = [0; -1; 1]%Z ++ 7%Z :: [2]%Z)
      by reflexivity.
    assert (Hbad : norm_index (paths_len s) 7 = None) by reflexivity.
    destruct (deserialize_raises_after_partial_load s _ _ _ _ _ Heq Hpre Hbad)
      as (s' & Hok & Herr & _).
    rewrite Herr. f_equal.
    vm_compute in Hok. by injection Hok as <-.
  - assert (Heq : [0; -1]%Z ++ [1; 2 ^ 63; 2]%Z
                  = [0; -1; 1]%Z ++ (2 ^ 63)%Z :: [2]%Z) by reflexivity.
    assert (Hbad : norm_index (paths_len s) (2 ^ 63) = None) by reflexivity.
    destruct (deserialize_raises_after_partial_load s _ _ _ _ _ Heq Hpre Hbad)
      as (s' & Hok & Herr & _).
    rewrite Herr. f_equal.
    vm_compute in Hok. by injection Hok as <-.
Defined.

(** C6, as the claim states it, fails: a payload with the out-of-bounds
    index 5 (N = 2) is rejected only after the state was reset and the
    in-range index 0 before it was applied; and the index -1, which is not
    in [0 .. N-1] either, is not rejected at all. *)
Lemma deserialize_not_atomic_counterexample :
  let s := mkState 2 [9] [[false; true]; [false; true]]
                         [[false; false]; [false; false]] in
  deserialize (mkPayload [0; 5]%Z []) s
  = (Raise IndexError, mkState 2 [] [[true; false]] [[false; false]])
  ∧ mkState 2 [] [[true; false]] [[false; false]] ≠ s
  ∧ deserialize (mkPayload [-1]%Z []) s
    = (Ok tt, mkState 2 [] [[false; true]] [[false; false]]).
Proof. repeat split. discriminate. Qed.

(** *** Creating a group *)

Lemma create_group_run (s : state) (group : Group) :
  wf s →
  create_group group s
  = (Ok tt, mkState (paths_len s) (groups s ++ [group])
                    (positive s ++ [zeros (paths_len s)])
                    (negative s ++ take 1 (negative s))).
Proof.
  intros Hwf.
  destruct (wf_rows s Hwf) as (p0 & prest & n0 & nrest & Hp & Hn & Hlp & Hln).
  destruct Hwf as [Hrows _ _ _].
  unfold create_group, bind, modify, get. simpl.
  rewrite decide_True by (rewrite length_app; simpl; lia).
  unfold set_positive, set_negative. simpl.
  rewrite Hp. simpl. by rewrite Hlp.
Qed.

(** C4 at a reachable state: item 0 is rejected on the canvas, then a group
    is created.  The new group's positive row is all false, but its
    negative row is a copy of the canvas' negative row, so item 0 is
    already negative in the new group. *)
Lemma create_group_negative_row_is_canvas_copy :
  let s0 := mkState 2 [] [[false; false]] [[false; false]] in
  ∃ s1 s2,
    setImageNegative 0 s0 = (Ok tt, s1)
    ∧ create_group 7 s1 = (Ok tt, s2)
    ∧ groups s2 = [7]
    ∧ positive s2 = [[false; false]; [false; false]]
    ∧ negative s2 = [[true; false]; [true; false]]
    ∧ entry (negative s2) 1 0 = Some true.
Proof. intros s0. do 2 eexists. by repeat split. Qed.

End ArtSearchClaims.

(* ===================================================================== *)
(** ** Facts about the search *)
(* ===================================================================== *)

Section SearchFacts.

Import Tensor ArtSearch SearchEngine.

Lemma insert_desc_perm (x : nat * Q) (l : list (nat * Q)) :
  insert_desc x l ≡ₚ x :: l.
Proof.
  induction l as [|y l IH]; simpl; [done|].
  destruct (Qle_bool (snd y) (snd x)); [done|].
  rewrite IH. apply Permutation_swap.
Qed.

Lemma sort_desc_perm (l : list (nat * Q)) : sort_desc l ≡ₚ l.
Proof.
  induction l as [|x l IH]; simpl; [done|].
  by rewrite insert_desc_perm, IH.
Qed.

(** Asking for as many results as there are rows returns every row. *)
Lemma topk_all (scores : list Q) :
  ∃ l, topk (length scores) scores = Ok l ∧ l ≡ₚ seq 0 (length scores).
Proof.
  unfold topk. rewrite decide_True by done. eexists. split; [done|].
  rewrite take_ge.
  - rewrite sort_desc_perm. by rewrite fst_zip by (by rewrite length_seq).
  - rewrite length_fmap, sort_desc_perm, length_zip, length_seq. lia.
Qed.

Lemma similarity_length (m : matrix) (valid : list bool) (features : vec) :
  length (similarity m valid features) = length m `min` length valid.
Proof.
  unfold similarity, mask_rows.
  by rewrite length_map, length_zip_with.
Qed.

(** [search_by_image] does not clamp [k]: with [k = N], as [image_search]
    calls it, every item id is returned, whatever the mask says. *)
Lemma search_by_image_returns_all {Text Image : Type}
      (self : engine Text Image) (valid : list bool) (image : Image) :
  length (embeddings self) = length valid →
  length (encodings self) = length valid →
  ∃ l, search_by_image self valid image (length valid) = Ok l
       ∧ ∀ i, i < length valid → i ∈ l.
Proof.
  intros He Hc. unfold search_by_image.
  set (sim := if use_embedding self then _ else _).
  assert (Hlen : length sim = length valid).
  { unfold sim. destruct (use_embedding self);
      rewrite similarity_length; lia. }
  destruct (topk_all sim) as (l & Hl & Hperm).
  rewrite Hlen in Hl, Hperm. exists l. split; [done|].
  intros i Hi. rewrite Hperm. apply elem_of_seq. lia.
Qed.

(** C1 at reachable states.  Item 1 was placed on the canvas, so the mask
    is [[true; false]].
    - [image_search] asks [search_by_image] for N results, which are not
      clamped to the number of valid items: item 1 is returned.
    - [text_search]: the clamp leaves k = 1, but the masked row scores 0,
      which beats the valid item's negative similarity -1: the one id
      returned is item 1. *)
Lemma search_returns_masked_item :
  let s0 := mkState 2 [] [[false; false]] [[false; false]] in
  let eng1 : engine unit unit :=
    mkEngine [[1; 0]; [0; 1]]%Q [[1; 0]; [0; 1]]%Q true
             (λ _, [1; 0]%Q) (λ _, [1; 0]%Q) (λ _, [1; 0]%Q) (λ _, [1; 0]%Q) in
  let eng2 : engine unit unit :=
    mkEngine [[-1; 0]; [0; 1]]%Q [[-1; 0]; [0; 1]]%Q true
             (λ _, [1; 0]%Q) (λ _, [1; 0]%Q) (λ _, [1; 0]%Q) (λ _, [1; 0]%Q) in
  ∃ s1,
    setImagePositive 1 s0 = (Ok tt, s1)
    ∧ restrict_search [] s1 = (Ok [true; false], s1)
    ∧ image_search eng1 tt [] s1 = (Ok [0; 1], s1)
    ∧ text_search eng2 tt [] s1 = (Ok [1], s1).
Proof. intros s0 eng1 eng2. eexists. by repeat split. Qed.

End SearchFacts.

(* ===================================================================== *)
(** ** Facts about the correction model *)
(* ===================================================================== *)

Section EmbeddingFacts.

Import Embedding.
Local Open Scope R_scope.

(** *** Maxima *)

Lemma foldl_Rmax_assoc (x y : R) (l : list R) :
  foldl Rmax (Rmax x y) l = Rmax x (foldl Rmax y l).
Proof.
  revert y. induction l as [|z l IH]; intros y; simpl; [done|].
  by rewrite <- IH, Rmax_assoc.
Qed.

Lemma foldl_Rmax_max_over {A} (f : A → R) (a : A) (l : list A) :
  foldl Rmax (f a) (map f l) = max_over f a l.
Proof.
  revert a. induction l as [|b l IH]; intros a; simpl; [done|].
  by rewrite foldl_Rmax_assoc, IH.
Qed.

Lemma max_dim0_cons {A} (f : A → R) (a : A) (l : list A) :
  max_dim0 (map f (a :: l)) = tensor_max (map f (a :: l)).
Proof. reflexivity. Qed.

Lemma tensor_max_map {A} (f : A → R) (a : A) (l : list A) :
  tensor_max (map f (a :: l)) = Ok (max_over f a l).
Proof. simpl. by rewrite foldl_Rmax_max_over. Qed.

Lemma max_over_ge {A} (f : A → R) (a : A) (l : list A) (x : A) :
  x ∈ a :: l → f x <= max_over f a l.
Proof.
  revert a. induction l as [|b l IH]; intros a Hx; simpl.
  - apply list_elem_of_singleton in Hx as ->. lra.
  - apply elem_of_cons in Hx as [->|Hx]; [apply Rmax_l|].
    etrans; [by apply IH | apply Rmax_r].
Qed.

Lemma max_over_attained {A} (f : A → R) (a : A) (l : list A) :
  ∃ x, x ∈ a :: l ∧ max_over f a l = f x.
Proof.
  revert a. induction l as [|b l IH]; intros a; simpl.
  - exists a. split; [left | done].
  - destruct (IH b) as (x & Hx & Hmax).
    unfold Rmax. destruct (Rle_dec (f a) (max_over f b l)).
    + exists x. split; [by right | done].
    + exists a. split; [left | done].
Qed.

(** A monotone map commutes with the maximum. *)
Lemma max_over_mono {A} (h : R → R) (f : A → R) (a : A) (l : list A) :
  (∀ x y, x <= y → h x <= h y) →
  max_over (λ x, h (f x)) a l = h (max_over f a l).
Proof.
  intros Hmono. revert a. induction l as [|b l IH]; intros a; simpl; [done|].
  rewrite IH. unfold Rmax.
  destruct (Rle_dec (f a) (max_over f b l)) as [Hle|Hgt];
    destruct (Rle_dec (h (f a)) (h (max_over f b l))) as [Hle'|Hgt']; try done.
  - exfalso. apply Hgt'. by apply Hmono.
  - apply Rle_antisym; [apply Hmono; lra | done].
Qed.

(** *** Dot products and normalisation *)

Lemma dot_self_nonneg (x : vec) : 0 <= dot x x.
Proof.
  unfold dot, sum. induction x as [|a x IH]; simpl; [lra|]. nra.
Qed.

Lemma dot_le_squares (x y : vec) : 2 * dot x y <= dot x x + dot y y.
Proof.
  revert y. induction x as [|a x IH]; intros [|b y].
  - unfold dot, sum; simpl. lra.
  - pose proof (dot_self_nonneg (b :: y)). unfold dot, sum in *; simpl in *. lra.
  - pose proof (dot_self_nonneg (a :: x)). unfold dot, sum in *; simpl in *. lra.
  - specialize (IH y). pose proof (Rle_0_sqr (a - b)) as Hsq.
    unfold Rsqr, dot, sum in *; simpl in *. lra.
Qed.

Lemma dot_scale (m : R) (x y : vec) :
  dot (map (λ c, c / m) x) (map (λ c, c / m) y) = dot x y / m / m.
Proof.
  revert y. induction x as [|a x IH]; intros [|b y];
    try (unfold dot, sum; simpl; lra).
  specialize (IH y). unfold dot, sum in *; simpl in *. rewrite IH. lra.
Qed.

Lemma eps_pos : 0 < eps.
Proof. unfold eps. lra. Qed.

Lemma normalize_row_norm_le_1 (x : vec) :
  dot (normalize_row x) (normalize_row x) <= 1.
Proof.
  unfold normalize_row. rewrite dot_scale.
  set (m := Rmax (norm x) eps).
  assert (Hm : 0 < m) by (pose proof eps_pos; pose proof (Rmax_r (norm x) eps); unfold m; lra).
  assert (Hn : norm x <= m) by apply Rmax_l.
  assert (Hsq : dot x x = norm x * norm x)
    by (unfold norm; by rewrite sqrt_sqrt by apply dot_self_nonneg).
  assert (H0 : 0 <= norm x) by apply sqrt_pos.
  rewrite Hsq.
  apply Rmult_le_reg_r with (r := m); [done|].
  apply Rmult_le_reg_r with (r := m); [done|].
  replace (norm x * norm x / m / m * m * m) with (norm x * norm x) by (field; lra).
  nra.
Qed.

Lemma cosine_le_1 (x y : vec) : cosine x y <= 1.
Proof.
  unfold cosine.
  pose proof (dot_le_squares (normalize_row x) (normalize_row y)).
  pose proof (normalize_row_norm_le_1 x).
  pose proof (normalize_row_norm_le_1 y). lra.
Qed.

Lemma normalize_row_unit (x : vec) : dot x x = 1 → normalize_row x = x.
Proof.
  intros Hx. unfold normalize_row, norm. rewrite Hx, sqrt_1.
  rewrite Rmax_left by (unfold eps; lra).
  induction x as [|a x IH] in |- *; simpl; [done|].
  f_equal; [lra|]. clear. induction x as [|b x IH]; simpl; [done|].
  f_equal; [lra | done].
Qed.

(** *** The gate *)

Lemma weight_gates (self : LocalSplitMLP) (inp : matrix) (c : vec) (cs : matrix) :
  concat (center self) = c :: cs →
  weight self inp
  = tensor_max (concat (map (λ y, map (pair_gate y) (c :: cs)) inp)).
Proof.
  intros Hc. unfold weight.
  rewrite decide_True by (destruct (center self); [done | simpl; lia]).
  rewrite Hc. unfold mm_t, normalize. rewrite !map_map.
  f_equal. f_equal. apply map_ext. intros y. by rewrite !map_map.
Qed.

Lemma tensor_max_app (l1 l2 : list R) (m1 m2 : R) :
  tensor_max l1 = Ok m1 → tensor_max l2 = Ok m2 →
  tensor_max (l1 ++ l2) = Ok (Rmax m1 m2).
Proof.
  destruct l1 as [|a l1], l2 as [|b l2]; try done. simpl.
  intros [= <-] [= <-]. f_equal.
  by rewrite foldl_app, <- foldl_Rmax_assoc.
Qed.

Lemma weight_single (self : LocalSplitMLP) (y : vec) (c : vec) (cs : matrix) :
  concat (center self) = c :: cs →
  weight self [y] = Ok (max_over (pair_gate y) c cs).
Proof.
  intros Hc. rewrite (weight_gates self [y] c cs Hc).
  cbn [map concat]. rewrite app_nil_r. apply tensor_max_map.
Qed.

Lemma weight_batch (self : LocalSplitMLP) (x : vec) (xs : matrix)
      (c : vec) (cs : matrix) :
  concat (center self) = c :: cs →
  weight self (x :: xs)
  = Ok (max_over (λ y, max_over (pair_gate y) c cs) x xs).
Proof.
  intros Hc. rewrite (weight_gates self (x :: xs) c cs Hc). clear Hc.
  revert x. induction xs as [|x' xs IH]; intros x.
  - cbn [map concat]. rewrite app_nil_r.
    exact (tensor_max_map (pair_gate x) c cs).
  - change (map (λ y, map (pair_gate y) (c :: cs)) (x :: x' :: xs))
      with (map (pair_gate x) (c :: cs)
            :: map (λ y, map (pair_gate y) (c :: cs)) (x' :: xs)).
    cbn [concat max_over].
    apply tensor_max_app; [exact (tensor_max_map (pair_gate x) c cs) | apply IH].
Qed.

Lemma pair_gate_mono (x y : R) :
  x <= y → exp (-10 * (1 - x)) <= exp (-10 * (1 - y)).
Proof.
  intros [Hlt| ->]; [|lra]. left. apply exp_increasing. lra.
Qed.

Lemma pair_gate_mono_le0 (x : R) :
  x <= 1 → exp (-10 * (1 - x)) <= exp 0.
Proof.
  intros Hx. replace 0 with (-10 * (1 - 1)) by lra. by apply pair_gate_mono.
Qed.

Lemma zip_with_map_l {A B C} (f : B → A → C) (g : A → B) (l : list A) :
  zip_with f (map g l) l = map (λ y, f (g y) y) l.
Proof. induction l as [|a l IH]; simpl; [done|]. by rewrite IH. Qed.

End EmbeddingFacts.

Section EmbeddingClaims.

Import Embedding.
Local Open Scope R_scope.

(** C3. For a unit-norm centre [c] and nonempty sets [P], [Q] of unit-norm
    positive and negative embeddings, the loss used for training
    ([CenterMarginLoss] with margin 0.1) returns the mean over [p] in [P]
    of [1 - c.p] plus the mean over [q] in [Q] of
    [relu (max over p of (1 - c.p) - (1 - c.q) + 0.1)]. *)
Theorem center_margin_loss_formula (c : vec) (P Q : matrix) :
  dot c c = 1 →
  Forall (λ p, dot p p = 1) P → Forall (λ q, dot q q = 1) Q →
  P ≠ [] → Q ≠ [] →
  loss_func c P Q = Ok (margin_loss_spec 0.1 c P Q).
Proof.
  intros _ _ _ HP _. destruct P as [|p0 P]; [done|].
  unfold loss_func, CenterMarginLoss, margin_loss_spec.
  rewrite max_dim0_cons, (tensor_max_map (λ p, 1 - dot c p) p0 P).
  cbn [mbind result_bind].
  by rewrite map_map.
Qed.

Lemma center_margin_loss_formula_witness :
  loss_func [1; 0] [[1; 0]; [0; 1]] [[0; -1]]
  = Ok (margin_loss_spec 0.1 [1; 0] [[1; 0]; [0; 1]] [[0; -1]]).
Proof.
  apply center_margin_loss_formula.
  - unfold dot, sum; simpl; lra.
  - repeat constructor; unfold dot, sum; simpl; lra.
  - repeat constructor; unfold dot, sum; simpl; lra.
  - discriminate.
  - discriminate.
Defined.

(** The gate of a single embedding [e] in exact real arithmetic: exactly 0
    when no centre is registered; otherwise, with [c :: cs] the registered
    centre rows, [exp (-10 * (1 - max cosine of e to the centres))], which
    lies in [0, 1] over the reals.  The model keeps one centre list, which
    [encode_image] and [encode_text] both consult.  The bound is a fact of
    real numbers: the float32 gate of the program is this value up to
    rounding, and for an embedding equal to a centre row it can come out
    just above 1. *)
Theorem weight_single_embedding (self : LocalSplitMLP) (e : vec) :
  (center self = [] → weight self [e] = Ok 0)
  ∧ (∀ c cs, concat (center self) = c :: cs →
       weight self [e] = Ok (exp (-10 * (1 - max_cosine e c cs)))
       ∧ 0 <= exp (-10 * (1 - max_cosine e c cs)) <= 1).
Proof.
  split.
  - intros Hc. unfold weight. by rewrite Hc.
  - intros c cs Hc. split.
    + rewrite (weight_single self e c cs Hc). f_equal.
      unfold max_cosine.
      apply (max_over_mono (λ x, exp (-10 * (1 - x))) (cosine e)).
      apply pair_gate_mono.
    + split; [left; apply exp_pos|].
      pose proof (pair_gate_mono_le0 (max_cosine e c cs)) as Hle.
      rewrite exp_0 in Hle. apply Hle.
      unfold max_cosine.
      destruct (max_over_attained (cosine e) c cs) as (x & _ & ->).
      apply cosine_le_1.
Qed.

Lemma weight_single_embedding_witness :
  let m := mkModel [[[1; 0]]; [[0; 1]]] (eye 2) [0; 0] (eye 2) [0; 0] in
  weight (init 2) [[0; 1]] = Ok 0
  ∧ weight m [[0; 1]] = Ok (exp (-10 * (1 - max_cosine [0; 1] [1; 0] [[0; 1]])))
  ∧ 0 <= exp (-10 * (1 - max_cosine [0; 1] [1; 0] [[0; 1]])) <= 1.
Proof.
  intros m. split.
  - apply (weight_single_embedding (init 2) [0; 1]). reflexivity.
  - apply (weight_single_embedding m [0; 1]). reflexivity.
Defined.

(** *** One gate per call *)

Lemma update_embedding_rows {OptState} (e : Embedder OptState)
      (inp : matrix) (w : R) :
  weight (embedder e) inp = Ok w →
  update_embedding e inp
  = Ok (map (λ y, normalize_row
                    (zip_with (λ o v, w * o + (1 - w) * v)
                       (normalize_row
                          (linear (mlp_text_weight (embedder e))
                                  (mlp_text_bias (embedder e)) y)) y)) inp).
Proof.
  intros Hw. unfold update_embedding, refine_image_embedding, encode_image.
  rewrite Hw. cbn [mbind result_bind fmap result_fmap fst]. f_equal.
  unfold blend, normalize. rewrite map_map, zip_with_map_l. by rewrite map_map.
Qed.

(** C2, as the code has it.  With centres registered, the gate is one
    scalar per call: the largest of the gates the rows of the batch would
    get on their own.  Every row's own gate is at most the batch gate, some
    row attains it, and [update_embedding] blends every row of the table
    with that shared gate. *)
Theorem batch_gate_is_largest_item_gate {OptState} (e : Embedder OptState)
        (x : vec) (xs : matrix) (c : vec) (cs : matrix) :
  concat (center (embedder e)) = c :: cs →
  ∃ w,
    weight (embedder e) (x :: xs) = Ok w
    ∧ (∀ y, y ∈ x :: xs → ∃ wy, weight (embedder e) [y] = Ok wy ∧ wy <= w)
    ∧ (∃ y, y ∈ x :: xs ∧ weight (embedder e) [y] = Ok w)
    ∧ update_embedding e (x :: xs)
      = Ok (map (λ y, normalize_row
                        (zip_with (λ o v, w * o + (1 - w) * v)
                           (normalize_row
                              (linear (mlp_text_weight (embedder e))
                                      (mlp_text_bias (embedder e)) y)) y))
                (x :: xs)).
Proof.
  intros Hc.
  set (G := λ y : vec, max_over (pair_gate y) c cs).
  exists (max_over G x xs).
  assert (Hw : weight (embedder e) (x :: xs) = Ok (max_over G x xs))
    by (by apply weight_batch).
  split; [done|]. split; [|split].
  - intros y Hy. exists (G y). split; [by apply weight_single|].
    by apply (max_over_ge G).
  - destruct (max_over_attained G x xs) as (y & Hy & ->).
    exists y. split; [done | by apply weight_single].
  - by apply update_embedding_rows.
Qed.

Lemma unit_10 : dot [1; 0] [1; 0] = 1.
Proof. unfold dot, sum; simpl; lra. Qed.
Lemma unit_01 : dot [0; 1] [0; 1] = 1.
Proof. unfold dot, sum; simpl; lra. Qed.

Lemma batch_gate_is_largest_item_gate_witness :
  let m := mkModel [[[1; 0]]] (eye 2) [0; 0] (eye 2) [0; 0] in
  ∃ w, weight m [[1; 0]; [0; 1]] = Ok w
       ∧ ∃ y, y ∈ [[1; 0]; [0; 1]] ∧ weight m [y] = Ok w.
Proof.
  intros m.
  destruct (batch_gate_is_largest_item_gate (mkEmbedder m tt)
              [1; 0] [[0; 1]] [1; 0] [] eq_refl) as (w & Hw & _ & Hy & _).
  exists w. split; [exact Hw | exact Hy].
Defined.

(** C2, as the claim states it, fails.  One group: its positive example is
    item 0 of the base table, [(1, 0)], and its name encodes to [(1, 0)] too,
    so [update_data] registers these two centre rows.  Item 1 of the base
    table is [(0, 1)], orthogonal to both, and its own gate is [exp (-10)].
    Recomputing the refined table over the whole base table uses the gate 1
    of item 0, which coincides with a centre, for both rows: item 1 is
    replaced by the output of the trained map (here the coordinate swap),
    which is orthogonal to where it started. *)
Lemma far_item_takes_batch_gate_counterexample :
  let centers : list matrix := [[[1; 0]]; [[1; 0]]] in
  let m := mkModel centers (eye 2) [0; 0] [[0; 1]; [1; 0]] [0; 0] in
  let base : matrix := [[1; 0]; [0; 1]] in
  build_centers (λ _ : unit, [[1; 0]]) [tt] [[[1; 0]]] = Ok centers
  ∧ cosine [0; 1] [1; 0] = 0
  ∧ weight m [[0; 1]] = Ok (exp (-10))
  ∧ exp (-10) < 1
  ∧ weight m base = Ok 1
  ∧ update_embedding (mkEmbedder m tt) base = Ok [[0; 1]; [1; 0]]
  ∧ dot [0; 1] [1; 0] = 0.
Proof.
  intros centers m base.
  assert (Hcos01 : cosine [0; 1] [1; 0] = 0).
  { unfold cosine. rewrite !normalize_row_unit by (unfold dot, sum; simpl; lra).
    unfold dot, sum; simpl; lra. }
  assert (Hcos11 : cosine [1; 0] [1; 0] = 1).
  { unfold cosine. rewrite !normalize_row_unit by (unfold dot, sum; simpl; lra).
    unfold dot, sum; simpl; lra. }
  assert (Hlt : exp (-10) < 1).
  { rewrite <- exp_0. apply exp_increasing. lra. }
  assert (Hown : weight m [[0; 1]] = Ok (exp (-10))).
  { rewrite (weight_single m _ [1; 0] [[1; 0]] eq_refl).
    cbn [max_over]. unfold pair_gate. rewrite Hcos01.
    replace (-10 * (1 - 0)) with (-10) by lra.
    f_equal. apply Rmax_left. lra. }
  assert (Hbatch : weight m base = Ok 1).
  { unfold base. rewrite (weight_batch m _ _ [1; 0] [[1; 0]] eq_refl).
    cbn [max_over]. unfold pair_gate. rewrite Hcos01, Hcos11.
    replace (-10 * (1 - 1)) with 0 by lra.
    replace (-10 * (1 - 0)) with (-10) by lra.
    rewrite exp_0. f_equal.
    rewrite (Rmax_left 1 1) by lra.
    rewrite (Rmax_left (exp (-10)) (exp (-10))) by lra.
    apply Rmax_left. lra. }
  repeat split; try done.
  - cbn [build_centers mbind result_bind]. unfold Embedder_encode_text, normalize.
    cbn [map]. by rewrite !(normalize_row_unit [1; 0] unit_10).
  - rewrite (update_embedding_rows (mkEmbedder m tt) base 1 Hbatch).
    unfold base. cbn [map embedder mlp_text_weight mlp_text_bias m].
    assert (Hl0 : linear [[0; 1]; [1; 0]] [0; 0] [1; 0] = [0; 1])
      by (unfold linear, dot, sum; simpl; repeat (f_equal; try lra)).
    assert (Hl1 : linear [[0; 1]; [1; 0]] [0; 0] [0; 1] = [1; 0])
      by (unfold linear, dot, sum; simpl; repeat (f_equal; try lra)).
    rewrite Hl0, Hl1.
    rewrite (normalize_row_unit [0; 1] unit_01).
    rewrite (normalize_row_unit [1; 0] unit_10).
    assert (Hb0 : zip_with (λ o v, 1 * o + (1 - 1) * v) [0; 1] [1; 0] = [0; 1])
      by (simpl; repeat (f_equal; try lra)).
    assert (Hb1 : zip_with (λ o v, 1 * o + (1 - 1) * v) [1; 0] [0; 1] = [1; 0])
      by (simpl; repeat (f_equal; try lra)).
    rewrite Hb0, Hb1.
    rewrite (normalize_row_unit [0; 1] unit_01).
    by rewrite (normalize_row_unit [1; 0] unit_10).
  - unfold dot, sum; simpl; lra.
Qed.

(** *** Degenerate groups *)

Section Skipping.

Context {Tokens OptState : Type}.
Variable encoder_encode_text : Tokens → matrix.
Variable optimizer_step :
  (LocalSplitMLP → result R) → LocalSplitMLP → OptState → LocalSplitMLP * OptState.
Variables (group_embeddings : list Tokens) (pos_example neg_example : list matrix).

Lemma train_group_degenerate (j : nat) (e : Embedder OptState) :
  degenerate pos_example neg_example j →
  train_group encoder_encode_text optimizer_step
              group_embeddings pos_example neg_example j e = (Ok tt, e).
Proof.
  intros (pos & neg & Hp & Hn & Hdeg). unfold train_group, bind.
  rewrite Hp. simpl. case_decide as Hlp; [done|].
  rewrite Hn. simpl. case_decide as Hln; [done|].
  destruct Hdeg as [-> | ->]; done.
Qed.

Lemma for_each_skip (l : list nat) (e : Embedder OptState) :
  (∀ j, j ∈ l → degenerate pos_example neg_example j) →
  for_each l (train_group encoder_encode_text optimizer_step
                          group_embeddings pos_example neg_example) e
  = (Ok tt, e).
Proof.
  induction l as [|j l IH]; intros Hall; simpl; [done|].
  unfold bind. rewrite train_group_degenerate by (apply Hall; left).
  apply IH. intros k Hk. apply Hall. by right.
Qed.

Lemma build_centers_ok (ge : list Tokens) (pos : list matrix) :
  (∀ j, (j < length ge)%nat → is_Some (pos !! j)) →
  ∃ c, build_centers encoder_encode_text ge pos = Ok c.
Proof.
  revert pos. induction ge as [|g ge IH]; intros pos Hall; simpl.
  - by eexists.
  - destruct pos as [|p pos].
    + destruct (Hall 0%nat) as [? ?]; [simpl; lia | done].
    + destruct (IH pos) as [c Hc].
      { intros j Hj. apply (Hall (S j)). simpl. lia. }
      rewrite Hc. by eexists.
Qed.

(** C8. A group with no positive or no negative example is skipped by
    the training loop: it raises nothing and leaves the model and the
    optimiser untouched.  When every group is degenerate,
    [optimize_embedding] returns normally with the embedder as it was,
    so the refined table computed from it is the same as before; and a
    whole round, reloading the training data first, returns normally
    with the parameters and the optimiser state unchanged. *)
Theorem degenerate_groups_are_skipped (e : Embedder OptState) :
  (∀ j, degenerate pos_example neg_example j →
        train_group encoder_encode_text optimizer_step
                    group_embeddings pos_example neg_example j e = (Ok tt, e))
  ∧ ((∀ j, (j < length group_embeddings)%nat →
           degenerate pos_example neg_example j) →
     optimize_embedding encoder_encode_text optimizer_step
                        group_embeddings pos_example neg_example e = (Ok tt, e)
     ∧ (∀ encodings,
         update_embedding
           (optimize_embedding encoder_encode_text optimizer_step
                               group_embeddings pos_example neg_example e).2
           encodings
         = update_embedding e encodings)
     ∧ ∀ data_changed, ∃ e',
         update_latent_step encoder_encode_text optimizer_step data_changed
                            group_embeddings pos_example neg_example e
         = (Ok tt, e')
         ∧ parameters (embedder e') = parameters (embedder e)
         ∧ optimizer e' = optimizer e).
Proof.
  split; [intros j; apply train_group_degenerate|].
  intros Hall.
  assert (Hrun : ∀ e0, optimize_embedding encoder_encode_text optimizer_step
                   group_embeddings pos_example neg_example e0 = (Ok tt, e0)).
  { intros e0. apply for_each_skip. intros j Hj. apply Hall.
    apply elem_of_seq in Hj. lia. }
  split; [done|]. split; [intros encodings; by rewrite Hrun|].
  intros [|]; unfold update_latent_step, bind.
  - destruct (build_centers_ok group_embeddings pos_example) as [c Hc].
    { intros j Hj. destruct (Hall j Hj) as (pos & neg & Hpos & _). by exists pos. }
    unfold update_data. rewrite Hc. unfold modify. rewrite Hrun.
    by eexists.
  - unfold ret. rewrite Hrun. by eexists.
Qed.

End Skipping.

Lemma degenerate_groups_are_skipped_witness :
  let step := λ (_ : LocalSplitMLP → result R) (_ : LocalSplitMLP) (n : nat),
                (init 0, S n) in
  let e := mkEmbedder (init 2) 0%nat in
  optimize_embedding (λ _ : unit, [[1; 0]]) step [tt] [[[1; 0]]] [[]] e
  = (Ok tt, e).
Proof.
  intros step e.
  apply (degenerate_groups_are_skipped (λ _ : unit, [[1; 0]]) step
           [tt] [[[1; 0]]] [[]] e).
  intros j Hj. simpl in Hj. assert (j = 0%nat) as -> by lia.
  exists [[1; 0]], []. repeat split. by right.
Defined.

End EmbeddingClaims.


(* ===================================================================== *)
(** ** Further properties of the relevance state *)
(* ===================================================================== *)

Section ArtSearchMore.

Import Tensor ArtSearch Shape.

Lemma norm_index_wrap (n : nat) (i : Z) :
  (- Z.of_nat n ≤ i < 0)%Z →
  norm_index n i = norm_index n (Z.of_nat n + i).
Proof.
  intros Hi. unfold norm_index.
  rewrite (decide_False (P := (0 ≤ i < _)%Z)) by lia.
  rewrite (decide_True (P := (- _ ≤ i < 0)%Z)) by lia.
  rewrite (decide_True (P := (0 ≤ _ + i < _)%Z)) by lia. done.
Qed.

Lemma norm_index_lt' (n : nat) (i : Z) (k : nat) :
  norm_index n i = Some k → k < n.
Proof.
  unfold norm_index. repeat case_decide; intros [= <-]; lia.
Qed.

Lemma row_set_idx (row : list bool) (i : Z) (k : nat) (v : bool) :
  norm_index (length row) i = Some k → row_set row i v = Some (<[k := v]> row).
Proof. intros Hk. unfold row_set. by rewrite Hk. Qed.

(** The two writes of a marking method for an accepted index. *)
Lemma set_image_run_idx (s : state) (p0 n0 : list bool) (prest nrest : t)
      (i : Z) (k : nat) (vp vn : bool) :
  positive s = p0 :: prest → negative s = n0 :: nrest →
  norm_index (length p0) i = Some k → norm_index (length n0) i = Some k →
  bind (write_positive0 i vp) (λ _, write_negative0 i vn) s
  = (Ok tt, mkState (paths_len s) (groups s)
                    (<[k := vp]> p0 :: prest) (<[k := vn]> n0 :: nrest)).
Proof.
  intros Hp Hn Hkp Hkn. unfold bind.
  rewrite (write_positive0_row s p0 prest), (row_set_idx p0 i k) by done.
  rewrite (write_negative0_row _ n0 nrest), (row_set_idx n0 i k) by done.
  done.
Qed.

Lemma marking_methods_cases (op : Z → M state unit) :
  op ∈ marking_methods →
  ∃ vp vn, (vp && vn = false)
           ∧ op = λ i, bind (write_positive0 i vp) (λ _, write_negative0 i vn).
Proof.
  unfold marking_methods. rewrite !elem_of_cons, elem_of_nil.
  intros [->|[->|[->|[]]]].
  - by exists true, false.
  - by exists false, true.
  - by exists false, false.
Qed.

(** X1. A marking method called with an id outside [-N .. N-1] is
    rejected and leaves the whole state as it was: it raises IndexError when
    the id fits a signed 64-bit integer, and the ValueError of torch's
    overflow when it does not. *)
Theorem marking_out_of_range_is_rejected
        (s : state) (p0 n0 : list bool) (i : Z) (op : Z → M state unit) :
  canvas_rows s p0 n0 → op ∈ marking_methods →
  (i < - Z.of_nat (paths_len s) ∨ Z.of_nat (paths_len s) ≤ i)%Z →
  (fits_int64 i → op i s = (Raise IndexError, s))
  ∧ (¬ fits_int64 i → op i s = (Raise ValueError, s)).
Proof.
  intros Hc Hop Hi.
  assert (op i s = (Raise (index_exn i), s)) as ->;
    [|unfold index_exn, fits_int64; split; intros Hf;
      [by rewrite decide_True | by rewrite decide_False]].
  destruct (canvas_rows_cons s p0 n0 Hc) as (prest & nrest & Hp & Hn).
  destruct Hc as [_ _ Hlp _].
  destruct (marking_methods_cases op Hop) as (vp & vn & _ & ->).
  unfold bind. rewrite (write_positive0_row s p0 prest) by done.
  assert (row_set p0 i vp = None) as ->; [|done].
  apply row_set_None. rewrite Hlp. by apply norm_index_None.
Qed.

Lemma marking_out_of_range_is_rejected_witness :
  let s := mkState 2 [] [[true; false]] [[false; true]] in
  setImageNegative 2 s = (Raise IndexError, s)
  ∧ setImageNegative (2 ^ 63) s = (Raise ValueError, s).
Proof.
  intros s. split.
  - apply (marking_out_of_range_is_rejected s [true; false] [false; true]).
    + by split.
    + unfold marking_methods. rewrite !elem_of_cons. auto.
    + simpl. lia.
    + unfold fits_int64. lia.
  - apply (marking_out_of_range_is_rejected s [true; false] [false; true]).
    + by split.
    + unfold marking_methods. rewrite !elem_of_cons. auto.
    + simpl. lia.
    + unfold fits_int64. lia.
Defined.

(** X2. A negative id in [-N .. -1] is accepted and addresses item
    [N + id]: the call behaves exactly as with that id. *)
Theorem marking_negative_index_wraps
        (s : state) (p0 n0 : list bool) (i : Z) (op : Z → M state unit) :
  canvas_rows s p0 n0 → op ∈ marking_methods →
  (- Z.of_nat (paths_len s) ≤ i < 0)%Z →
  op i s = op (Z.of_nat (paths_len s) + i)%Z s
  ∧ ∃ s', op i s = (Ok tt, s')
          ∧ same_except_item (Z.to_nat (Z.of_nat (paths_len s) + i)) s s'.
Proof.
  intros Hc Hop Hi.
  destruct (canvas_rows_cons s p0 n0 Hc) as (prest & nrest & Hp & Hn).
  destruct Hc as [_ _ Hlp Hln].
  destruct (marking_methods_cases op Hop) as (vp & vn & _ & ->).
  set (k := Z.to_nat (Z.of_nat (paths_len s) + i)).
  assert (Hk : norm_index (paths_len s) i = Some k).
  { unfold norm_index. rewrite decide_False, decide_True by lia. done. }
  assert (Hk' : norm_index (paths_len s) (Z.of_nat (paths_len s) + i) = Some k)
    by (by rewrite <- norm_index_wrap).
  rewrite (set_image_run_idx s p0 n0 prest nrest i k) by (by rewrite ?Hlp, ?Hln).
  rewrite (set_image_run_idx s p0 n0 prest nrest _ k) by (by rewrite ?Hlp, ?Hln).
  split; [done|]. eexists. split; [done|]. by apply set_image_frame.
Qed.

Lemma marking_negative_index_wraps_witness :
  let s := mkState 3 [] [[false; false; false]] [[false; false; false]] in
  setImagePositive (-1) s = setImagePositive 2 s.
Proof.
  intros s.
  apply (marking_negative_index_wraps s [false; false; false] [false; false; false]).
  - by split.
  - unfold marking_methods. rewrite !elem_of_cons. auto.
  - simpl. lia.
Defined.

(** X3. Marking keeps the canvas exclusive: if no item is both positive and
    negative before a marking method runs on an accepted id, none is
    afterwards; the marked item itself is never both, whatever it was. *)
Theorem marking_keeps_exclusive
        (s : state) (p0 n0 : list bool) (i : Z) (k : nat) (op : Z → M state unit) :
  canvas_rows s p0 n0 → op ∈ marking_methods →
  norm_index (paths_len s) i = Some k →
  ∃ s', op i s = (Ok tt, s')
        ∧ ¬ (marked (positive s') k ∧ marked (negative s') k)
        ∧ (exclusive s → exclusive s').
Proof.
  intros Hc Hop Hk.
  destruct (canvas_rows_cons s p0 n0 Hc) as (prest & nrest & Hp & Hn).
  destruct Hc as [_ _ Hlp Hln].
  destruct (marking_methods_cases op Hop) as (vp & vn & Hv & ->).
  pose proof (norm_index_lt' _ _ _ Hk) as Hlt.
  eexists. split.
  { apply (set_image_run_idx s p0 n0 prest nrest i k); by rewrite ?Hlp, ?Hln. }
  unfold marked, exclusive, entry. simpl. split.
  - rewrite !list_lookup_insert_eq by lia. intros [[= ->] [= ->]]. done.
  - rewrite Hp, Hn. simpl. intros Hex j.
    destruct (decide (j = k)) as [->|Hne].
    + rewrite !list_lookup_insert_eq by lia. intros [[= ->] [= ->]]. done.
    + rewrite !list_lookup_insert_ne by done. apply Hex.
Qed.

Lemma marking_keeps_exclusive_witness :
  let s := mkState 2 [] [[true; false]] [[true; false]] in
  ∃ s', setImageNegative 0 s = (Ok tt, s')
        ∧ ¬ (marked (positive s') 0 ∧ marked (negative s') 0).
Proof.
  intros s.
  destruct (marking_keeps_exclusive s [true; false] [true; false] 0 0
              setImageNegative) as (s' & Hrun & Hk & _).
  - by split.
  - unfold marking_methods. rewrite !elem_of_cons. auto.
  - reflexivity.
  - exists s'. split; [exact Hrun | exact Hk].
Defined.

(** X4. On one item the last marking wins: running any marking method and
    then any marking method on the same accepted id leaves exactly the state
    the second one alone leaves.  In particular each method is idempotent. *)
Theorem marking_last_write_wins
        (s : state) (p0 n0 : list bool) (i : Z) (k : nat)
        (op1 op2 : Z → M state unit) :
  canvas_rows s p0 n0 →
  op1 ∈ marking_methods → op2 ∈ marking_methods →
  norm_index (paths_len s) i = Some k →
  bind (op1 i) (λ _, op2 i) s = op2 i s.
Proof.
  intros Hc Hop1 Hop2 Hk.
  destruct (canvas_rows_cons s p0 n0 Hc) as (prest & nrest & Hp & Hn).
  destruct Hc as [_ _ Hlp Hln].
  destruct (marking_methods_cases op1 Hop1) as (vp1 & vn1 & _ & ->).
  destruct (marking_methods_cases op2 Hop2) as (vp2 & vn2 & _ & ->).
  unfold bind at 1.
  rewrite (set_image_run_idx s p0 n0 prest nrest i k) by (by rewrite ?Hlp, ?Hln).
  rewrite (set_image_run_idx s p0 n0 prest nrest i k) by (by rewrite ?Hlp, ?Hln).
  rewrite (set_image_run_idx _ (<[k:=vp1]> p0) (<[k:=vn1]> n0) prest nrest i k)
    by (by rewrite ?length_insert, ?Hlp, ?Hln).
  simpl. by rewrite !list_insert_insert_eq.
Qed.

Lemma marking_last_write_wins_witness :
  let s := mkState 2 [] [[false; false]] [[false; false]] in
  bind (setImagePositive 1) (λ _, setImageNegative 1) s = setImageNegative 1 s.
Proof.
  intros s.
  apply (marking_last_write_wins s [false; false] [false; false] 1 1).
  - by split.
  - unfold marking_methods. rewrite !elem_of_cons. auto.
  - unfold marking_methods. rewrite !elem_of_cons. auto.
  - reflexivity.
Defined.

(** X5. Markings of two different items commute: the two orders of calling
    any two marking methods on ids that address different items leave the
    same state. *)
Theorem marking_different_items_commute
        (s : state) (p0 n0 : list bool) (i j : Z) (ki kj : nat)
        (op1 op2 : Z → M state unit) :
  canvas_rows s p0 n0 →
  op1 ∈ marking_methods → op2 ∈ marking_methods →
  norm_index (paths_len s) i = Some ki →
  norm_index (paths_len s) j = Some kj → ki ≠ kj →
  bind (op1 i) (λ _, op2 j) s = bind (op2 j) (λ _, op1 i) s.
Proof.
  intros Hc Hop1 Hop2 Hki Hkj Hne.
  destruct (canvas_rows_cons s p0 n0 Hc) as (prest & nrest & Hp & Hn).
  destruct Hc as [_ _ Hlp Hln].
  destruct (marking_methods_cases op1 Hop1) as (vp1 & vn1 & _ & ->).
  destruct (marking_methods_cases op2 Hop2) as (vp2 & vn2 & _ & ->).
  unfold bind at 1. unfold bind at 3.
  rewrite (set_image_run_idx s p0 n0 prest nrest i ki) by (by rewrite ?Hlp, ?Hln).
  rewrite (set_image_run_idx s p0 n0 prest nrest j kj) by (by rewrite ?Hlp, ?Hln).
  rewrite (set_image_run_idx _ (<[ki:=vp1]> p0) (<[ki:=vn1]> n0) prest nrest j kj)
    by (by rewrite ?length_insert, ?Hlp, ?Hln).
  rewrite (set_image_run_idx _ (<[kj:=vp2]> p0) (<[kj:=vn2]> n0) prest nrest i ki)
    by (by rewrite ?length_insert, ?Hlp, ?Hln).
  simpl. f_equal. f_equal; f_equal; by apply list_insert_insert_ne.
Qed.

Lemma marking_different_items_commute_witness :
  let s := mkState 2 [] [[false; false]] [[false; false]] in
  bind (setImagePositive 0) (λ _, setImageNegative (-1)) s
  = bind (setImageNegative (-1)) (λ _, setImagePositive 0) s.
Proof.
  intros s.
  apply (marking_different_items_commute s [false; false] [false; false] 0 (-1) 0 1).
  - by split.
  - unfold marking_methods. rewrite !elem_of_cons. auto.
  - unfold marking_methods. rewrite !elem_of_cons. auto.
  - reflexivity.
  - reflexivity.
  - lia.
Defined.

(** *** The shape invariant *)

Lemma wf_set_row0 (s : state) (p0 n0 p0' n0' : list bool) (prest nrest : t) :
  wf s → positive s = p0 :: prest → negative s = n0 :: nrest →
  length p0' = length p0 → length n0' = length n0 →
  wf (mkState (paths_len s) (groups s) (p0' :: prest) (n0' :: nrest)).
Proof.
  intros [Hpr Hnr Hpc Hnc] Hp Hn Hlp Hln. rewrite Hp in Hpr, Hpc.
  rewrite Hn in Hnr, Hnc.
  apply Forall_cons in Hpc as [Hp0 Hpc]. apply Forall_cons in Hnc as [Hn0 Hnc].
  split; simpl; try done.
  - apply Forall_cons. split; [congruence | done].
  - apply Forall_cons. split; [congruence | done].
Qed.

Lemma marking_keeps_wf (s s' : state) (i : Z) (vp vn : bool) (r : result unit) :
  wf s →
  bind (write_positive0 i vp) (λ _, write_negative0 i vn) s = (r, s') → wf s'.
Proof.
  intros Hwf.
  destruct (wf_rows s Hwf) as (p0 & prest & n0 & nrest & Hp & Hn & Hlp & Hln).
  unfold bind. rewrite (write_positive0_row s p0 prest) by done.
  destruct (row_set p0 i vp) as [p0'|] eqn:Hrp; [|by intros [= _ <-]].
  rewrite (write_negative0_row _ n0 nrest) by done.
  pose proof (row_set_length _ _ _ _ Hrp) as Hlp'.
  destruct (row_set n0 i vn) as [n0'|] eqn:Hrn; intros [= _ <-].
  - pose proof (row_set_length _ _ _ _ Hrn).
    by apply (wf_set_row0 s p0 n0).
  - unfold set_positive. rewrite Hn. by apply (wf_set_row0 s p0 n0).
Qed.

(** X6. The shape invariant (one row pair per group plus the canvas row,
    every row of length N) survives every marking method, [create_group] and
    [remove_group], whatever their argument and whether they return or
    raise. *)
Theorem shape_invariant_is_kept (s s' : state) (r : result unit) :
  wf s →
  (∀ op i, op ∈ marking_methods → op i s = (r, s') → wf s')
  ∧ (∀ group, create_group group s = (r, s') → wf s')
  ∧ (∀ group, remove_group group s = (r, s') → wf s').
Proof.
  intros Hwf. split; [|split].
  - intros op i Hop Hrun.
    destruct (marking_methods_cases op Hop) as (vp & vn & _ & ->).
    by eapply marking_keeps_wf.
  - intros group. rewrite create_group_run by done. intros [= _ <-].
    destruct (wf_rows s Hwf) as (p0 & prest & n0 & nrest & Hp & Hn & Hlp & Hln).
    destruct Hwf as [Hpr Hnr Hpc Hnc].
    split; simpl.
    + rewrite !length_app. simpl. lia.
    + rewrite !length_app, length_take, Hnr. simpl. lia.
    + apply Forall_app. split; [done|]. repeat constructor.
      apply length_replicate.
    + apply Forall_app. split; [done|]. by apply Forall_take.
  - intros group. unfold remove_group, bind, get.
    destruct (list_index group (groups s)) as [i|] eqn:Hi; simpl.
    + intros [= _ <-]. unfold set_groups, set_positive, set_negative. simpl.
      destruct (list_index_remove _ _ _ Hi) as [Hgi ->].
      apply lookup_lt_Some in Hgi. destruct Hwf as [Hpr Hnr Hpc Hnc].
      rewrite !delete_row_delete. split; simpl.
      * rewrite (length_delete (positive s)) by (apply lookup_lt_is_Some; lia).
        rewrite (length_delete (groups s)) by (apply lookup_lt_is_Some; lia). lia.
      * rewrite (length_delete (negative s)) by (apply lookup_lt_is_Some; lia).
        rewrite (length_delete (groups s)) by (apply lookup_lt_is_Some; lia). lia.
      * by apply Forall_delete.
      * by apply Forall_delete.
    + by intros [= _ <-].
Qed.

Lemma shape_invariant_is_kept_witness :
  wf (mkState 2 [] [[true; false]] [[false; true]]).
Proof.
  set (s := mkState 2 [5] [[true; false]; [true; false]]
                          [[false; true]; [false; false]]).
  assert (Hwf : wf s) by (split; simpl; repeat constructor).
  apply (proj2 (proj2 (shape_invariant_is_kept s _ (Ok tt) Hwf)) 5).
  reflexivity.
Defined.

(** X7. [reset] clears both canvas rows and drops every group row, but keeps
    the group list: the state it leaves serialises to two empty lists, and
    it is well shaped exactly when there was no group. *)
Theorem reset_keeps_groups (s : state) :
  ∃ s', reset s = (Ok tt, s')
        ∧ groups s' = groups s
        ∧ serialize s' = (Ok (mkPayload [] []), s')
        ∧ (wf s' ↔ groups s = []).
Proof.
  eexists. split; [done|]. simpl. split; [done|]. split.
  - unfold serialize, bind, get. simpl. f_equal. f_equal.
    assert (Hz : ∀ k n, nonzero_from k (zeros n) = []).
    { intros k n. revert k. induction n as [|n IH]; intros k; simpl; [done|].
      apply IH. }
    unfold nonzero. by rewrite Hz.
  - split.
    + intros [Hpr _ _ _]. simpl in Hpr. destruct (groups s); [done|].
      simpl in Hpr. lia.
    + intros Hg. split; simpl; rewrite ?Hg; try done;
        repeat constructor; apply length_replicate.
Qed.

(** X8. [remove_group] of a group that is not listed raises ValueError and
    changes nothing. *)
Theorem remove_group_absent (s : state) (group : Group) :
  group ∉ groups s → remove_group group s = (Raise ValueError, s).
Proof.
  intros Hnot. unfold remove_group, bind, get.
  assert (list_index group (groups s) = None) as ->; [|done].
  induction (groups s) as [|g l IH]; simpl; [done|].
  apply not_elem_of_cons in Hnot as [Hne Hnot].
  rewrite decide_False by done. by rewrite IH.
Qed.

Lemma remove_group_absent_witness :
  let s := mkState 1 [3] [[true]; [false]] [[false]; [false]] in
  remove_group 4 s = (Raise ValueError, s).
Proof.
  intros s. apply remove_group_absent. simpl.
  intros Hin. apply list_elem_of_singleton in Hin. discriminate.
Defined.

Lemma list_index_snoc_fresh (group : Group) (l : list Group) :
  group ∉ l → list_index group (l ++ [group]) = Some (length l).
Proof.
  induction l as [|g l IH]; intros Hnot; simpl.
  - by rewrite decide_True.
  - apply not_elem_of_cons in Hnot as [Hne Hnot].
    rewrite decide_False by done. by rewrite IH.
Qed.

(** X9. Creating a group that is not yet listed and removing it again
    restores the state exactly. *)
Theorem create_then_remove_group (s : state) (group : Group) :
  wf s → group ∉ groups s →
  bind (create_group group) (λ _, remove_group group) s = (Ok tt, s).
Proof.
  intros Hwf Hnot. unfold bind at 1. rewrite create_group_run by done.
  rewrite (remove_group_run _ group (length (groups s)))
    by (by apply list_index_snoc_fresh).
  destruct Hwf as [Hpr Hnr _ _]. simpl.
  assert (Hg' : delete (length (groups s)) (groups s ++ [group]) = groups s)
    by (by rewrite delete_middle, app_nil_r).
  assert (Hp' : delete (S (length (groups s)))
                       (positive s ++ [zeros (paths_len s)]) = positive s)
    by (by rewrite <- Hpr, delete_middle, app_nil_r).
  assert (Hn' : delete (S (length (groups s)))
                       (negative s ++ take 1 (negative s)) = negative s).
  { rewrite <- Hnr. destruct (negative s) as [|n0 nrest]; [done|].
    change (take 1 (n0 :: nrest)) with [n0].
    by rewrite delete_middle, app_nil_r. }
  rewrite Hg'. destruct s as [N g p n]. simpl in *.
  f_equal. f_equal; [exact Hp' | exact Hn'].
Qed.

Lemma create_then_remove_group_witness :
  let s := mkState 2 [5] [[true; false]; [true; false]]
                         [[false; true]; [false; false]] in
  bind (create_group 6) (λ _, remove_group 6) s = (Ok tt, s).
Proof.
  intros s. apply create_then_remove_group.
  - split; simpl; repeat constructor.
  - simpl. intros Hin. apply list_elem_of_singleton in Hin. discriminate.
Defined.

(** *** Persistence *)

Lemma nonzero_from_spec (k : nat) (row : list bool) (i : Z) :
  i ∈ nonzero_from k row ↔ ∃ j, i = Z.of_nat (k + j) ∧ row !! j = Some true.
Proof.
  revert k. induction row as [|b row IH]; intros k; simpl.
  - split; [by intros ?%elem_of_nil | by intros (j & _ & ?)].
  - rewrite elem_of_app, IH. split.
    + intros [Hin|(j & -> & Hj)].
      * destruct b; [|by apply elem_of_nil in Hin].
        apply list_elem_of_singleton in Hin as ->. exists 0.
        split; [f_equal; lia | done].
      * exists (S j). split; [f_equal; lia | done].
    + intros ([|j] & -> & Hj); simpl in Hj.
      * injection Hj as ->. left. rewrite Nat.add_0_r. by left.
      * right. exists j. split; [f_equal; lia | done].
Qed.

Lemma nonzero_from_sorted (k : nat) (row : list bool) :
  StronglySorted Z.lt (nonzero_from k row).
Proof.
  revert k. induction row as [|b row IH]; intros k; simpl; [constructor|].
  destruct b; simpl; [|apply IH]. constructor; [apply IH|].
  apply Forall_forall. intros i (j & -> & _)%nonzero_from_spec. lia.
Qed.

Lemma nonzero_canonical (row : list bool) : canonical (length row) (nonzero row).
Proof.
  split; [apply nonzero_from_sorted|].
  apply Forall_forall. intros i (j & -> & Hj)%nonzero_from_spec.
  apply lookup_lt_Some in Hj. lia.
Qed.

Lemma nonzero_marked (row : list bool) (k : nat) :
  Z.of_nat k ∈ nonzero row ↔ row !! k = Some true.
Proof.
  unfold nonzero. rewrite nonzero_from_spec. split.
  - intros (j & Hj & Hrow). by assert (k = j) as -> by lia.
  - intros Hrow. by exists k.
Qed.

(** X10. [serialize] writes, for each of the two canvas rows, the ids of the
    marked items and nothing else, in strictly increasing order; it does not
    change the state. *)
Theorem serialize_lists_marked_items (s : state) (p0 n0 : list bool) :
  canvas_rows s p0 n0 →
  ∃ data, serialize s = (Ok data, s)
    ∧ canonical (paths_len s) (data_positive data)
    ∧ canonical (paths_len s) (data_negative data)
    ∧ (∀ k, Z.of_nat k ∈ data_positive data ↔ marked (positive s) k)
    ∧ (∀ k, Z.of_nat k ∈ data_negative data ↔ marked (negative s) k).
Proof.
  intros [Hp Hn Hlp Hln]. eexists. split.
  { unfold serialize, bind, get. by rewrite Hp, Hn. }
  simpl. rewrite <- Hlp at 1. rewrite <- Hln.
  split; [apply nonzero_canonical|]. split; [apply nonzero_canonical|].
  unfold marked, entry. rewrite Hp, Hn. simpl.
  split; intros k; apply nonzero_marked.
Qed.

Lemma serialize_lists_marked_items_witness :
  let s := mkState 3 [] [[true; false; true]] [[false; true; false]] in
  ∃ data, serialize s = (Ok data, s) ∧ canonical 3 (data_positive data).
Proof.
  intros s.
  destruct (serialize_lists_marked_items s [true; false; true] [false; true; false])
    as (data & Hrun & Hcan & _).
  - by split.
  - exists data. split; [exact Hrun | exact Hcan].
Defined.

Lemma mark_each_lookup (l : list Z) (row row' : list bool) (k : nat) :
  mark_each row l = Some row' →
  row' !! k = Some true
  ↔ row !! k = Some true ∨ ∃ i, i ∈ l ∧ norm_index (length row) i = Some k.
Proof.
  revert row. induction l as [|i l IH]; intros row; simpl.
  - intros [= <-]. split; [by left|].
    intros [?|(i & Hin & _)]; [done | by apply elem_of_nil in Hin].
  - unfold row_set at 1.
    destruct (norm_index (length row) i) as [ki|] eqn:Hki; [|done]. simpl.
    intros Hm. rewrite (IH _ Hm), length_insert.
    pose proof (norm_index_lt' _ _ _ Hki) as Hlt.
    split.
    + intros [Hk|(i' & Hin & Hi')].
      * destruct (decide (ki = k)) as [->|Hne].
        -- right. exists i. split; [left | done].
        -- left. by rewrite list_lookup_insert_ne in Hk.
      * right. exists i'. split; [by right | done].
    + intros [Hk|(i' & Hin & Hi')].
      * left. destruct (decide (ki = k)) as [->|Hne].
        -- by rewrite list_lookup_insert_eq.
        -- by rewrite list_lookup_insert_ne.
      * apply elem_of_cons in Hin as [->|Hin].
        -- left. rewrite Hki in Hi'. injection Hi' as ->.
           by rewrite list_lookup_insert_eq.
        -- right. by exists i'.
Qed.

Lemma zeros_lookup_true (N k : nat) : zeros N !! k ≠ Some true.
Proof.
  unfold zeros. intros H. apply lookup_replicate in H as [? _]. done.
Qed.

(** X11. A payload whose ids are all within [-N .. N-1] always loads: the
    call returns normally, the group list is empty, the state is well
    shaped, and an item is positive (negative) on the canvas afterwards
    exactly when one of the payload's positive (negative) ids addresses
    it.  Nothing keeps the two lists apart: an id present in both ends up
    both positive and negative. *)
Theorem deserialize_marks_exactly (s : state) (data : payload) :
  Forall (λ i, norm_index (paths_len s) i ≠ None)
         (data_positive data ++ data_negative data) →
  ∃ s', deserialize data s = (Ok tt, s')
    ∧ wf s' ∧ groups s' = [] ∧ paths_len s' = paths_len s
    ∧ (∀ k, marked (positive s') k
            ↔ ∃ i, i ∈ data_positive data ∧ norm_index (paths_len s) i = Some k)
    ∧ (∀ k, marked (negative s') k
            ↔ ∃ i, i ∈ data_negative data ∧ norm_index (paths_len s) i = Some k).
Proof.
  intros [Hpos Hneg]%Forall_app.
  assert (Hz : length (zeros (paths_len s)) = paths_len s)
    by apply length_replicate.
  destruct (mark_each_in_range (data_positive data) (zeros (paths_len s)))
    as [p Hp]; [by rewrite Hz|].
  destruct (mark_each_in_range (data_negative data) (zeros (paths_len s)))
    as [n Hn]; [by rewrite Hz|].
  exists (mkState (paths_len s) [] [p] [n]).
  split; [by apply deserialize_ok|].
  pose proof (mark_each_length _ _ _ Hp) as Hlp.
  pose proof (mark_each_length _ _ _ Hn) as Hln.
  split; [|split; [done|split; [done|]]].
  { split; simpl; try done; repeat constructor; congruence. }
  unfold marked, entry. simpl.
  split; intros k.
  - rewrite (mark_each_lookup _ _ _ k Hp), Hz. split; [|by right].
    intros [Hk|?]; [|done]. by apply zeros_lookup_true in Hk.
  - rewrite (mark_each_lookup _ _ _ k Hn), Hz. split; [|by right].
    intros [Hk|?]; [|done]. by apply zeros_lookup_true in Hk.
Qed.

Lemma deserialize_marks_exactly_witness :
  let s := mkState 3 [8] [[true; true; true]; [true; false; false]]
                         [[false; false; false]; [false; true; true]] in
  ∃ s', deserialize (mkPayload [1; -1]%Z [-1]%Z) s = (Ok tt, s')
        ∧ (marked (positive s') 2 ∧ marked (negative s') 2).
Proof.
  intros s.
  destruct (deserialize_marks_exactly s (mkPayload [1; -1]%Z [-1]%Z))
    as (s' & Hrun & _ & _ & _ & Hp & Hn).
  - repeat constructor; discriminate.
  - exists s'. split; [exact Hrun|]. split.
    + apply Hp. exists (-1)%Z. split; [simpl; by right; left | reflexivity].
    + apply Hn. exists (-1)%Z. split; [simpl; by left | reflexivity].
Defined.

Lemma StronglySorted_lt_NoDup (l : list Z) : StronglySorted Z.lt l → NoDup l.
Proof.
  induction 1 as [|x l Hs IH Hall]; constructor; [|done].
  intros Hin. rewrite Forall_forall in Hall. specialize (Hall x Hin). lia.
Qed.

Lemma sorted_lists_same_elements (l1 l2 : list Z) :
  StronglySorted Z.lt l1 → StronglySorted Z.lt l2 →
  (∀ i, i ∈ l1 ↔ i ∈ l2) → l1 = l2.
Proof.
  intros H1 H2 Hel.
  assert (AntiSymm (=) Z.lt) by (intros x y ? ?; lia).
  apply (StronglySorted_unique Z.lt); [done..|].
  apply NoDup_Permutation; [by apply StronglySorted_lt_NoDup..|done].
Qed.

Lemma canonical_in_range (N : nat) (l : list Z) :
  canonical N l → Forall (λ i, norm_index N i ≠ None) l.
Proof.
  intros [_ Hr]. eapply Forall_impl; [exact Hr|]. simpl.
  intros i Hi. unfold norm_index. by rewrite decide_True.
Qed.

Lemma mark_each_canonical (N : nat) (l : list Z) (row : list bool) :
  canonical N l → mark_each (zeros N) l = Some row → nonzero row = l.
Proof.
  intros Hcan Hm.
  assert (Hz : length (zeros N) = N) by apply length_replicate.
  pose proof (mark_each_length _ _ _ Hm) as Hlen. rewrite Hz in Hlen.
  apply sorted_lists_same_elements; [apply nonzero_from_sorted | apply Hcan|].
  destruct Hcan as [_ Hr]. rewrite Forall_forall in Hr.
  intros i. split.
  - intros Hin. pose proof Hin as (j & -> & Hj)%nonzero_from_spec.
    apply (mark_each_lookup _ _ _ j Hm) in Hj as [Hj|(i' & Hin' & Hi')].
    { by apply zeros_lookup_true in Hj. }
    rewrite Hz in Hi'. pose proof (Hr i' Hin') as Hri.
    unfold norm_index in Hi'. rewrite decide_True in Hi' by done.
    injection Hi' as <-. simpl. by rewrite Z2Nat.id by lia.
  - intros Hin. pose proof (Hr i Hin) as Hri.
    rewrite <- (Z2Nat.id i) by lia. apply nonzero_marked.
    apply (mark_each_lookup _ _ _ _ Hm). right. exists i.
    split; [done|]. rewrite Hz. unfold norm_index. by rewrite decide_True.
Qed.

(** X12. Loading a payload as [serialize] writes them (two strictly
    increasing lists of ids of [0 .. N-1]) and saving again returns the
    very same payload, whatever the state was before the load. *)
Theorem deserialize_serialize_roundtrip (s : state) (data : payload) :
  canonical (paths_len s) (data_positive data) →
  canonical (paths_len s) (data_negative data) →
  ∃ s', bind (deserialize data) (λ _, serialize) s = (Ok data, s').
Proof.
  intros Hcp Hcn.
  assert (Hz : length (zeros (paths_len s)) = paths_len s)
    by apply length_replicate.
  destruct (mark_each_in_range (data_positive data) (zeros (paths_len s)))
    as [p Hp]; [rewrite Hz; by apply canonical_in_range|].
  destruct (mark_each_in_range (data_negative data) (zeros (paths_len s)))
    as [n Hn]; [rewrite Hz; by apply canonical_in_range|].
  exists (mkState (paths_len s) [] [p] [n]).
  unfold bind at 1. rewrite (deserialize_ok s data p n) by done.
  unfold serialize, bind, get. simpl.
  rewrite (mark_each_canonical _ _ _ Hcp Hp), (mark_each_canonical _ _ _ Hcn Hn).
  by destruct data.
Qed.

Lemma deserialize_serialize_roundtrip_witness :
  let s := mkState 4 [1] [[true; true; true; true]; [false; false; false; false]]
                         [[false; false; false; false]; [true; false; false; false]] in
  ∃ s', bind (deserialize (mkPayload [0; 3]%Z [1; 2]%Z)) (λ _, serialize) s
        = (Ok (mkPayload [0; 3]%Z [1; 2]%Z), s').
Proof.
  intros s.
  apply (deserialize_serialize_roundtrip s (mkPayload [0; 3]%Z [1; 2]%Z)).
  - split; simpl; repeat constructor; lia.
  - split; simpl; repeat constructor; lia.
Defined.

Lemma write_positive0_keeps_wf (s s' : state) (i : Z) (v : bool) (r : result unit) :
  wf s → write_positive0 i v s = (r, s') → wf s' ∧ groups s' = groups s.
Proof.
  intros Hwf.
  destruct (wf_rows s Hwf) as (p0 & prest & n0 & nrest & Hp & Hn & Hlp & Hln).
  rewrite (write_positive0_row s p0 prest) by done.
  destruct (row_set p0 i v) as [p0'|] eqn:Hrp; intros [= _ <-]; [|done].
  split; [|done]. unfold set_positive. rewrite Hn.
  apply (wf_set_row0 s p0 n0); try done. by eapply row_set_length.
Qed.

Lemma write_negative0_keeps_wf (s s' : state) (i : Z) (v : bool) (r : result unit) :
  wf s → write_negative0 i v s = (r, s') → wf s' ∧ groups s' = groups s.
Proof.
  intros Hwf.
  destruct (wf_rows s Hwf) as (p0 & prest & n0 & nrest & Hp & Hn & Hlp & Hln).
  rewrite (write_negative0_row s n0 nrest) by done.
  destruct (row_set n0 i v) as [n0'|] eqn:Hrn; intros [= _ <-]; [|done].
  split; [|done]. unfold set_negative. rewrite Hp.
  apply (wf_set_row0 s p0 n0); try done. by eapply row_set_length.
Qed.

Lemma for_each_keeps {A} (P : state → Prop) (body : A → M state unit) (l : list A) :
  (∀ x s r s', P s → body x s = (r, s') → P s') →
  ∀ s r s', P s → for_each l body s = (r, s') → P s'.
Proof.
  intros Hbody. induction l as [|x l IH]; intros s r s' HP; simpl.
  - by intros [= _ <-].
  - unfold bind. destruct (body x s) as [[[]|e] s1] eqn:Hb.
    + apply IH. by eapply Hbody.
    + intros [= _ <-]. by eapply Hbody.
Qed.

Lemma deserialize_from_scratch (s : state) (data : payload) :
  deserialize data s
  = bind (for_each (data_positive data) (λ index, write_positive0 index true))
         (λ _, for_each (data_negative data) (λ index, write_negative0 index true))
         (mkState (paths_len s) [] [zeros (paths_len s)] [zeros (paths_len s)]).
Proof. done. Qed.

(** X13. [deserialize] starts from scratch: its outcome, the result as well
    as the state left behind, depends on the collection size and the payload
    only, not on the state it is called in; and whether it returns or
    raises, the state it leaves is well shaped and has no group. *)
Theorem deserialize_discards_prior_state (s1 s2 : state) (data : payload) :
  paths_len s1 = paths_len s2 →
  deserialize data s1 = deserialize data s2
  ∧ ∀ r s', deserialize data s1 = (r, s') → wf s' ∧ groups s' = [].
Proof.
  intros HN. split.
  - by rewrite !deserialize_from_scratch, HN.
  - intros r s'. rewrite deserialize_from_scratch.
    set (s0 := mkState _ _ _ _).
    assert (H0 : wf s0 ∧ groups s0 = []).
    { split; [|done]. split; simpl; try done; repeat constructor;
        apply length_replicate. }
    assert (Hpos : ∀ s r s', wf s ∧ groups s = [] →
              for_each (data_positive data) (λ index, write_positive0 index true) s
              = (r, s') → wf s' ∧ groups s' = []).
    { apply (for_each_keeps (λ s, wf s ∧ groups s = [])).
      intros x s r0 s0' [Hwf Hg] Hrun.
      destruct (write_positive0_keeps_wf _ _ _ _ _ Hwf Hrun). split; congruence. }
    assert (Hneg : ∀ s r s', wf s ∧ groups s = [] →
              for_each (data_negative data) (λ index, write_negative0 index true) s
              = (r, s') → wf s' ∧ groups s' = []).
    { apply (for_each_keeps (λ s, wf s ∧ groups s = [])).
      intros x s r0 s0' [Hwf Hg] Hrun.
      destruct (write_negative0_keeps_wf _ _ _ _ _ Hwf Hrun). split; congruence. }
    unfold bind.
    destruct (for_each (data_positive data) _ s0) as [[[]|e] sa] eqn:Hfa.
    + apply Hneg. by eapply Hpos.
    + intros [= _ <-]. by eapply Hpos.
Qed.

Lemma deserialize_discards_prior_state_witness :
  let s1 := mkState 2 [4] [[true; true]; [true; false]] [[false; false]; [false; true]] in
  let s2 := mkState 2 [] [[false; false]] [[true; true]] in
  deserialize (mkPayload [1; 9]%Z [0]%Z) s1 = deserialize (mkPayload [1; 9]%Z [0]%Z) s2.
Proof.
  intros s1 s2.
  apply (deserialize_discards_prior_state s1 s2). reflexivity.
Defined.

End ArtSearchMore.

(* ===================================================================== *)
(** ** Further properties of the search *)
(* ===================================================================== *)

Section SearchMore.

Import Tensor ArtSearch SearchEngine Shape.

(** *** The validity mask *)

Lemma restrict_search_run (s : state) (p0 n0 : list bool) (results : list (list Z)) :
  canvas_rows s p0 n0 →
  restrict_search results s
  = let nz := filter (λ r, r ≠ []) results in
    if decide (nz ≠ []) then
      if decide (intersection nz = []) then (Raise IndexError, s)
      else match mark_each (zeros (paths_len s)) (intersection nz) with
           | Some v =>
               (Ok (zip_with andb (negb <$> n0) (zip_with andb (negb <$> p0) v)), s)
           | None => (Raise IndexError, s)
           end
    else (Ok (zip_with andb (negb <$> p0) (negb <$> n0)), s).
Proof.
  intros [Hp Hn Hlp Hln]. unfold restrict_search, bind, get.
  rewrite Hp. simpl. rewrite Hlp.
  destruct (decide (filter _ results ≠ [])); [|by rewrite Hn].
  destruct (decide (intersection _ = [])); [done|]. simpl.
  destruct (mark_each _ _); [|done]. simpl. by rewrite Hn.
Qed.

Lemma intersection_spec (nz : list (list Z)) (i : Z) :
  nz ≠ [] → i ∈ intersection nz ↔ ∀ l, l ∈ nz → i ∈ l.
Proof.
  destruct nz as [|l0 ls]; [done|]. intros _. simpl.
  rewrite list_elem_of_filter, Forall_forall. split.
  - intros [Hall H0] l [->|Hl]%elem_of_cons; [done | by apply Hall].
  - intros Hall. split; [|apply Hall; by left].
    intros l Hl. apply Hall. by right.
Qed.

Lemma mark_each_None (l : list Z) (row : list bool) (i : Z) :
  i ∈ l → norm_index (length row) i = None → mark_each row l = None.
Proof.
  revert row. induction l as [|x l IH]; intros row Hin Hi.
  - by apply elem_of_nil in Hin.
  - simpl. destruct (row_set row x true) as [r1|] eqn:Hr; [|done]. simpl.
    apply elem_of_cons in Hin as [->|Hin].
    + apply (row_set_None row x true) in Hi. congruence.
    + apply IH; [done|]. by rewrite (row_set_length _ _ _ _ Hr).
Qed.

Lemma andb_rows_lookup (a b : list bool) (j : nat) :
  zip_with andb (negb <$> a) b !! j = Some true
  ↔ a !! j = Some false ∧ b !! j = Some true.
Proof.
  rewrite lookup_zip_with_Some, list_lookup_fmap. split.
  - intros (x & y & Hxy & Ha & Hb). symmetry in Hxy.
    apply andb_true_iff in Hxy as [-> ->].
    by destruct (a !! j) as [[]|].
  - intros [Ha Hb]. exists true, true. by rewrite Ha, Hb.
Qed.

(** X14. Whenever [restrict_search] returns a mask, the state is unchanged,
    the mask has one entry per item, and item [j] is valid exactly when it
    is neither positive nor negative on the canvas and some id addressing
    it occurs in every filter result that is not empty.  A filter that
    matched nothing therefore excludes nothing, and without filters every
    unmarked item is valid. *)
Theorem restrict_search_mask (s s' : state) (p0 n0 valid : list bool)
        (results : list (list Z)) :
  canvas_rows s p0 n0 →
  restrict_search results s = (Ok valid, s') →
  s' = s ∧ length valid = paths_len s
  ∧ ∀ j, valid !! j = Some true
         ↔ p0 !! j = Some false ∧ n0 !! j = Some false
           ∧ ∃ i, norm_index (paths_len s) i = Some j
                  ∧ ∀ l, l ∈ results → l ≠ [] → i ∈ l.
Proof.
  intros Hc. rewrite (restrict_search_run s p0 n0) by done.
  destruct Hc as [Hp Hn Hlp Hln]. simpl.
  assert (Hz : length (zeros (paths_len s)) = paths_len s)
    by apply length_replicate.
  destruct (decide (filter _ results ≠ [])) as [Hnz|Hnz].
  - destruct (decide (intersection _ = [])); [done|].
    destruct (mark_each _ _) as [v|] eqn:Hv; [|done]. intros [= <- <-].
    pose proof (mark_each_length _ _ _ Hv) as Hlv. rewrite Hz in Hlv.
    split; [done|]. split.
    { rewrite !length_zip_with, !length_fmap. lia. }
    intros j. rewrite andb_rows_lookup, andb_rows_lookup.
    rewrite (mark_each_lookup _ _ _ j Hv), Hz.
    split.
    + intros (Hn0 & Hp0 & [Hk|(i & Hin & Hi)]).
      { by apply zeros_lookup_true in Hk. }
      split; [done|]. split; [done|]. exists i. split; [done|].
      intros l Hl Hne. apply (proj1 (intersection_spec _ i Hnz) Hin).
      by apply list_elem_of_filter.
    + intros (Hp0 & Hn0 & i & Hi & Hall). split; [done|]. split; [done|].
      right. exists i. split; [|done].
      apply (intersection_spec _ i Hnz). intros l [Hne Hl]%list_elem_of_filter.
      by apply Hall.
  - intros [= <- <-]. apply dec_stable in Hnz. split; [done|]. split.
    { rewrite !length_zip_with, !length_fmap. lia. }
    intros j. rewrite andb_rows_lookup, list_lookup_fmap. split.
    + intros [Hp0 Hn0]. split; [done|].
      destruct (n0 !! j) as [[]|]; try done. split; [done|].
      apply lookup_lt_Some in Hp0. exists (Z.of_nat j).
      split; [apply norm_index_nat; lia|].
      intros l Hl Hne. exfalso. by eapply (filter_nil_not_elem_of _ _ l Hnz).
    + intros (Hp0 & Hn0 & _). by rewrite Hn0.
Qed.

Lemma restrict_search_mask_witness :
  let s := mkState 3 [] [[true; false; false]] [[false; false; false]] in
  let results := [[]; [1; 2]%Z; [2; 0]%Z] in
  restrict_search results s = (Ok [false; false; true], s)
  ∧ length [false; false; true] = paths_len s.
Proof.
  intros s results.
  assert (Hc : canvas_rows s [true; false; false] [false; false; false])
    by (by split).
  assert (Hrun : restrict_search results s = (Ok [false; false; true], s))
    by reflexivity.
  split; [exact Hrun|].
  exact (proj1 (proj2 (restrict_search_mask s s _ _ _ results Hc Hrun))).
Defined.

(** X15. [restrict_search] with at least one non-empty filter result
    returns a mask only if the results share an id and all shared ids lie
    within [-N .. N-1]; when the non-empty results have no id in common, or
    share an id out of range, it raises IndexError instead of returning an
    all-false mask.  The state is unchanged either way. *)
Theorem restrict_search_outcome (s : state) (p0 n0 : list bool)
        (results : list (list Z)) :
  canvas_rows s p0 n0 →
  filter (λ r, r ≠ []) results ≠ [] →
  let shared := intersection (filter (λ r, r ≠ []) results) in
  ((shared = [] ∨ ∃ i, i ∈ shared ∧ norm_index (paths_len s) i = None) →
   restrict_search results s = (Raise IndexError, s))
  ∧ (shared ≠ [] → Forall (λ i, norm_index (paths_len s) i ≠ None) shared →
     ∃ valid, restrict_search results s = (Ok valid, s)).
Proof.
  intros Hc Hnz shared. rewrite (restrict_search_run s p0 n0) by done. simpl.
  rewrite decide_True by done. fold shared.
  assert (Hz : length (zeros (paths_len s)) = paths_len s)
    by apply length_replicate.
  split.
  - intros [Hs|(i & Hin & Hi)].
    + by rewrite decide_True.
    + destruct (decide (shared = [])); [done|].
      by rewrite (mark_each_None shared _ i) by (by rewrite ?Hz).
  - intros Hs Hall. rewrite decide_False by done.
    destruct (mark_each_in_range shared (zeros (paths_len s))) as [v ->];
      [by rewrite Hz|]. by eexists.
Qed.

Lemma restrict_search_outcome_witness :
  let s := mkState 3 [] [[true; false; false]] [[false; false; false]] in
  restrict_search [[0; 1]%Z; [2]%Z] s = (Raise IndexError, s).
Proof.
  intros s.
  apply (restrict_search_outcome s [true; false; false] [false; false; false]).
  - by split.
  - discriminate.
  - left. reflexivity.
Defined.

(** *** Top-k *)

Lemma insert_desc_sorted (x : nat * Q) (l : list (nat * Q)) :
  StronglySorted ranks_before l → StronglySorted ranks_before (insert_desc x l).
Proof.
  induction 1 as [|y l Hs IH Hall]; simpl; [by repeat constructor|].
  destruct (Qle_bool (snd y) (snd x)) eqn:Hle.
  - apply Qle_bool_iff in Hle. constructor; [by constructor|].
    constructor; [done|]. eapply Forall_impl; [exact Hall|].
    intros z Hz. unfold ranks_before in *. by eapply Qle_trans.
  - constructor; [done|]. rewrite insert_desc_perm. constructor; [|done].
    unfold ranks_before. apply Qlt_le_weak, Qnot_le_lt. intros Hc.
    apply Qle_bool_iff in Hc. congruence.
Qed.

Lemma sort_desc_sorted (l : list (nat * Q)) :
  StronglySorted ranks_before (sort_desc l).
Proof.
  induction l as [|x l IH]; simpl; [constructor|]. by apply insert_desc_sorted.
Qed.

Lemma StronglySorted_lookup {A} (Rel : relation A) (l : list A)
      (a b : nat) (x y : A) :
  StronglySorted Rel l → a < b → l !! a = Some x → l !! b = Some y → Rel x y.
Proof.
  intros Hs. revert a b. induction Hs as [|z l Hs IH Hall]; intros a b Hab Ha Hb.
  - done.
  - destruct b as [|b]; [lia|]. simpl in Hb. destruct a as [|a]; simpl in Ha.
    + injection Ha as ->. rewrite Forall_forall in Hall. apply Hall.
      by eapply list_elem_of_lookup_2.
    + apply (IH a b); [lia | done..].
Qed.

(** The ranked table: every index paired with its score. *)
Lemma ranked_elem_of (scores : list Q) (i : nat) (x : Q) :
  (i, x) ∈ sort_desc (zip (seq 0 (length scores)) scores) ↔ scores !! i = Some x.
Proof.
  rewrite sort_desc_perm, list_elem_of_lookup. split.
  - intros (j & Hj). apply lookup_zip_Some in Hj as [Hs Hx].
    apply lookup_seq in Hs as [-> _]. done.
  - intros Hx. exists i. apply lookup_zip_Some. split; [|done].
    apply lookup_seq. split; [done|]. by eapply lookup_lt_Some.
Qed.

Lemma ranked_fst (scores : list Q) :
  fst <$> sort_desc (zip (seq 0 (length scores)) scores)
  ≡ₚ seq 0 (length scores).
Proof. rewrite sort_desc_perm. by rewrite fst_zip by (by rewrite length_seq). Qed.

Lemma topk_run (k : nat) (scores : list Q) :
  (k ≤ length scores →
   ∃ l, topk k scores = Ok l ∧ length l = k ∧ NoDup l
        ∧ Forall (λ i, i < length scores) l)
  ∧ (length scores < k → topk k scores = Raise RuntimeError).
Proof.
  unfold topk. split.
  - intros Hk. rewrite decide_True by done. eexists. split; [done|].
    pose proof (ranked_fst scores) as Hperm.
    split; [|split].
    + rewrite length_take, Hperm, length_seq. lia.
    + eapply sublist_NoDup; [|apply sublist_take].
      rewrite Hperm. apply NoDup_seq.
    + apply Forall_take. rewrite Hperm. apply Forall_forall.
      intros i Hi%elem_of_seq. lia.
  - intros Hk. by rewrite decide_False by lia.
Qed.

Lemma topk_ranked (k : nat) (scores : list Q) (l : list nat) :
  topk k scores = Ok l →
  (∀ a b ia ib xa xb,
      a < b → l !! a = Some ia → l !! b = Some ib →
      scores !! ia = Some xa → scores !! ib = Some xb → (xb <= xa)%Q)
  ∧ (∀ i ia x xa,
      i ∉ l → ia ∈ l →
      scores !! i = Some x → scores !! ia = Some xa → (x <= xa)%Q).
Proof.
  unfold topk. case_decide as Hk; [|done]. intros [= <-].
  set (ranked := sort_desc (zip (seq 0 (length scores)) scores)).
  pose proof (sort_desc_sorted (zip (seq 0 (length scores)) scores)) as Hsorted.
  fold ranked in Hsorted.
  assert (Hpair : ∀ p, p ∈ ranked → scores !! p.1 = Some p.2).
  { intros [i x] Hin. by apply ranked_elem_of. }
  split.
  - intros a b ia ib xa xb Hab Ha Hb Hxa Hxb.
    apply lookup_take_Some in Ha as [Ha _]. apply lookup_take_Some in Hb as [Hb _].
    rewrite list_lookup_fmap in Ha, Hb.
    destruct (ranked !! a) as [pa|] eqn:Hpa; [|done].
    destruct (ranked !! b) as [pb|] eqn:Hpb; [|done].
    simpl in Ha, Hb. injection Ha as <-. injection Hb as <-.
    pose proof (StronglySorted_lookup _ _ _ _ _ _ Hsorted Hab Hpa Hpb) as Hr.
    unfold ranks_before in Hr.
    apply list_elem_of_lookup_2, Hpair in Hpa.
    apply list_elem_of_lookup_2, Hpair in Hpb.
    rewrite Hxa in Hpa. rewrite Hxb in Hpb.
    injection Hpa as ->. by injection Hpb as ->.
  - intros i ia x xa Hi Hia Hx Hxa.
    rewrite <- fmap_take in Hi, Hia.
    apply list_elem_of_fmap in Hia as (pa & -> & Hpa).
    assert (Hin : (i, x) ∈ ranked) by (by apply ranked_elem_of).
    rewrite <- (take_drop k ranked) in Hin, Hsorted.
    apply elem_of_app in Hin as [Hin|Hin].
    { exfalso. apply Hi. apply list_elem_of_fmap. by exists (i, x). }
    pose proof (StronglySorted_app_1_elem_of _ _ _ _ _ Hsorted Hpa Hin) as Hr.
    unfold ranks_before in Hr. simpl in Hr.
    assert (Hpa' : pa ∈ ranked).
    { apply elem_of_take in Hpa as (j & Hj & _). by eapply list_elem_of_lookup_2. }
    apply Hpair in Hpa'. rewrite Hxa in Hpa'. by injection Hpa' as ->.
Qed.

(** X16. [topk k] on a tensor of N scores: for [k <= N] it returns exactly
    [k] pairwise different indices below N; for [k > N] it raises
    RuntimeError. *)
Theorem topk_shape (k : nat) (scores : list Q) :
  (k ≤ length scores →
   ∃ l, topk k scores = Ok l ∧ length l = k ∧ NoDup l
        ∧ Forall (λ i, i < length scores) l)
  ∧ (length scores < k → topk k scores = Raise RuntimeError).
Proof. exact (topk_run k scores). Qed.

Lemma topk_shape_witness :
  ∃ l, topk 2 [0.1; 0.9; 0.5]%Q = Ok l ∧ length l = 2 ∧ NoDup l
       ∧ Forall (λ i, i < 3) l.
Proof. apply (proj1 (topk_shape 2 [0.1; 0.9; 0.5]%Q)). simpl. lia. Defined.

(** X17. What [topk] returns is ranked and best: along the returned list the
    scores never increase, and no index left out has a score above that of a
    returned index. *)
Theorem topk_returns_largest (k : nat) (scores : list Q) (l : list nat) :
  topk k scores = Ok l →
  (∀ a b ia ib xa xb,
      a < b → l !! a = Some ia → l !! b = Some ib →
      scores !! ia = Some xa → scores !! ib = Some xb → (xb <= xa)%Q)
  ∧ (∀ i ia x xa,
      i ∉ l → ia ∈ l →
      scores !! i = Some x → scores !! ia = Some xa → (x <= xa)%Q).
Proof. exact (topk_ranked k scores l). Qed.

Lemma topk_returns_largest_witness : (0.5 <= 0.9)%Q.
Proof.
  assert (Hrun : topk 2 [0.1; 0.9; 0.5]%Q = Ok [1; 2]) by reflexivity.
  apply (proj1 (topk_returns_largest 2 _ _ Hrun) 0 1 1 2);
    [lia | reflexivity..].
Defined.

(** *** The two searches *)

Lemma count_valid_le (valid : list bool) : count_valid valid ≤ length valid.
Proof. unfold count_valid. apply length_filter. Qed.

(** The number of valid items is the number of indices the mask marks. *)
Lemma count_valid_indices (pre valid : list bool) :
  length (filter (λ j, (pre ++ valid) !! j = Some true)
                 (seq (length pre) (length valid)))
  = count_valid valid.
Proof.
  unfold count_valid. revert pre.
  induction valid as [|b valid IH]; intros pre; [done|]. simpl.
  specialize (IH (pre ++ [b])). rewrite <- app_assoc, length_app in IH.
  simpl in IH. rewrite Nat.add_1_r in IH.
  rewrite !filter_cons, list_lookup_middle by done.
  destruct b.
  - rewrite decide_True by done. rewrite decide_True by done. simpl. by rewrite IH.
  - rewrite decide_False by done. rewrite decide_False by done. by rewrite IH.
Qed.



(** X19. [search_by_image] does not clamp: asked for [k <= N] results it
    returns exactly [k] pairwise different ids whatever the mask, every id
    of the collection when [k = N], and for [k > N] it raises
    RuntimeError. *)
Theorem search_by_image_count {Text Image : Type}
        (self : engine Text Image) (valid : list bool) (image : Image) (k : nat) :
  length (embeddings self) = length valid →
  length (encodings self) = length valid →
  (k ≤ length valid →
   ∃ l, search_by_image self valid image k = Ok l
        ∧ length l = k ∧ NoDup l ∧ Forall (λ i, i < length valid) l
        ∧ (k = length valid → ∀ i, i < length valid → i ∈ l))
  ∧ (length valid < k →
     search_by_image self valid image k = Raise RuntimeError).
Proof.
  intros He Hc. unfold search_by_image.
  set (sim := if use_embedding self then _ else _).
  assert (Hlen : length sim = length valid).
  { unfold sim. destruct (use_embedding self);
      rewrite similarity_length; lia. }
  rewrite <- Hlen. split.
  - intros Hk. destruct (proj1 (topk_run k sim) Hk) as (l & Hl & Hn & Hd & Hr).
    exists l. repeat split; try done. intros -> i Hi.
    destruct (topk_all sim) as (l' & Hl' & Hperm).
    rewrite Hl in Hl'. injection Hl' as <-. rewrite Hperm.
    apply elem_of_seq. lia.
  - apply (topk_run k sim).
Qed.

Lemma search_by_image_count_witness :
  let eng : engine unit unit :=
    mkEngine [[1; 0]; [0; 1]]%Q [[1; 0]; [0; 1]]%Q true
             (λ _, [1; 0]%Q) (λ _, [1; 0]%Q) (λ _, [1; 0]%Q) (λ _, [1; 0]%Q) in
  search_by_image eng [true; false] tt 3 = Raise RuntimeError.
Proof.
  intros eng.
  apply (search_by_image_count eng [true; false] tt 3 eq_refl eq_refl).
  simpl. lia.
Defined.

Lemma dot_mask_true (row features : vec) :
  (dot (map (Qmult 1) row) features == dot row features)%Q.
Proof.
  unfold dot. revert features.
  induction row as [|a row IH]; intros [|b features]; simpl; try reflexivity.
  rewrite IH. ring.
Qed.

Lemma dot_mask_false (row features : vec) :
  (dot (map (Qmult 0) row) features == 0)%Q.
Proof.
  unfold dot. revert features.
  induction row as [|a row IH]; intros [|b features]; simpl; try reflexivity.
  rewrite IH. ring.
Qed.

Lemma map_is_fmap {A B} (f : A → B) (l : list A) : map f l = f <$> l.
Proof. induction l as [|a l IH]; simpl; [done|]. by rewrite IH. Qed.

Lemma similarity_lookup (m : matrix) (valid : list bool) (features : vec)
      (j : nat) (x : Q) :
  similarity m valid features !! j = Some x →
  ∃ (row : vec) (b : bool), m !! j = Some row ∧ valid !! j = Some b
           ∧ (x == (if b then dot row features else 0%Q))%Q.
Proof.
  unfold similarity, mask_rows. rewrite map_is_fmap.
  intros (r & -> & Hr)%list_lookup_fmap_Some.
  apply lookup_zip_with_Some in Hr as (row & b & -> & Hrow & Hb).
  exists row, b. split; [done|]. split; [done|].
  destruct b; [apply dot_mask_true | apply dot_mask_false].
Qed.

(** A mask is respected by [topk] when every valid score is positive, every
    masked score is zero and no more results are requested than there are
    valid items. *)
Lemma topk_respects_mask (valid : list bool) (scores : list Q) (k : nat)
      (l : list nat) :
  length scores = length valid →
  (∀ j x, valid !! j = Some true → scores !! j = Some x → (0 < x)%Q) →
  (∀ j x, valid !! j = Some false → scores !! j = Some x → (x == 0)%Q) →
  k ≤ count_valid valid →
  topk k scores = Ok l →
  ∀ i, i ∈ l → valid !! i = Some true.
Proof.
  intros Hlen Hpos Hzero Hk Hrun i Hi.
  pose proof (count_valid_le valid) as Hcv.
  destruct (proj1 (topk_run k scores)) as (l' & Hl' & Hn & Hd & Hr); [lia|].
  rewrite Hrun in Hl'. injection Hl' as <-.
  rewrite Forall_forall in Hr. pose proof (Hr i Hi) as Hlt.
  destruct (valid !! i) as [[]|] eqn:Hvi; [done| |].
  2:{ apply lookup_ge_None in Hvi. lia. }
  exfalso.
  destruct (lookup_lt_is_Some_2 scores i Hlt) as [xi Hxi].
  pose proof (Hzero i xi Hvi Hxi) as Hxi0.
  set (V := filter (λ j, valid !! j = Some true) (seq 0 (length valid))).
  assert (HV : ∀ j, j ∈ V → j ∈ l).
  { intros j [Hj Hjs]%list_elem_of_filter.
    destruct (decide (j ∈ l)) as [|Hnot]; [done|]. exfalso.
    apply elem_of_seq in Hjs.
    destruct (lookup_lt_is_Some_2 scores j) as [xj Hxj]; [lia|].
    pose proof (proj2 (topk_ranked k scores l Hrun) j i xj xi
                  Hnot Hi Hxj Hxi) as Hle.
    pose proof (Hpos j xj Hj Hxj) as Hgt.
    rewrite Hxi0 in Hle. by apply Qlt_not_le in Hgt. }
  assert (Hsub : i :: V ⊆+ l).
  { apply NoDup_submseteq.
    - constructor; [|apply NoDup_filter, NoDup_seq].
      intros [Hj _]%list_elem_of_filter. congruence.
    - intros j [->|Hj]%elem_of_cons; [done | by apply HV]. }
  apply submseteq_length in Hsub. simpl in Hsub.
  pose proof (count_valid_indices [] valid) as Hcount. simpl in Hcount.
  fold V in Hcount. lia.
Qed.

(** X20. When every valid item has a positive similarity to the query, the
    mask is respected by [search_by_text]: each id it returns is valid. *)
Theorem search_by_text_respects_mask_on_positive_scores {Text Image : Type}
        (self : engine Text Image) (valid : list bool) (text : Text)
        (k : nat) (l : list nat) :
  let table := if use_embedding self then embeddings self else encodings self in
  let features :=
    if use_embedding self then embed_text _ _ self text
    else encode_text _ _ self text in
  length table = length valid →
  (∀ j row, valid !! j = Some true → table !! j = Some row →
            (0 < dot row features)%Q) →
  search_by_text self valid text k = Ok l →
  ∀ i, i ∈ l → valid !! i = Some true.
Proof.
  intros table features Hlen Hpos. unfold search_by_text.
  replace (if use_embedding self
           then similarity (embeddings self) valid (embed_text _ _ self text)
           else similarity (encodings self) valid (encode_text _ _ self text))
    with (similarity table valid features)
    by (unfold table, features; by destruct (use_embedding self)).
  apply topk_respects_mask.
  - rewrite similarity_length. lia.
  - intros j x Hj Hx.
    apply similarity_lookup in Hx as (row & b & Hrow & Hb & Hxe).
    rewrite Hj in Hb. injection Hb as <-. rewrite Hxe. by apply (Hpos j).
  - intros j x Hj Hx.
    apply similarity_lookup in Hx as (row & b & Hrow & Hb & Hxe).
    rewrite Hj in Hb. by injection Hb as <-.
  - lia.
Qed.

Lemma search_by_text_respects_mask_on_positive_scores_witness :
  [true; false; true] !! 2 = Some true.
Proof.
  set (eng := mkEngine [[1; 0]; [0; 1]; [1; 1]]%Q [[1; 0]; [0; 1]; [1; 1]]%Q false
                (λ _ : unit, [1; 1]%Q) (λ _ : unit, [1; 1]%Q)
                (λ _ : unit, [1; 1]%Q) (λ _ : unit, [1; 1]%Q)).
  apply (search_by_text_respects_mask_on_positive_scores
           eng [true; false; true] tt 3 [2; 0]).
  - reflexivity.
  - intros [|[|[|j]]] row Hv Hrow; simpl in Hv, Hrow; try discriminate;
      injection Hrow as <-; reflexivity.
  - reflexivity.
  - left.
Defined.

End SearchMore.

(* ===================================================================== *)
(** ** Further properties of the correction model *)
(* ===================================================================== *)

Section EmbeddingMore.

Import Embedding.
Local Open Scope R_scope.

(** *** Normalisation *)

Lemma norm_nonneg (x : vec) : 0 <= norm x.
Proof. apply sqrt_pos. Qed.

Lemma norm_sqr (x : vec) : norm x * norm x = dot x x.
Proof. unfold norm. apply sqrt_sqrt, dot_self_nonneg. Qed.

(** X21. In exact real arithmetic, [fn.normalize] on a row whose norm is at
    least [eps]: the result has norm exactly 1 and normalising again changes
    nothing; on any row the result has norm at most 1. *)
Theorem normalize_row_is_unit (x : vec) :
  dot (normalize_row x) (normalize_row x) <= 1
  ∧ (eps <= norm x →
     dot (normalize_row x) (normalize_row x) = 1
     ∧ normalize_row (normalize_row x) = normalize_row x).
Proof.
  split; [apply normalize_row_norm_le_1|]. intros Hx.
  assert (Hunit : dot (normalize_row x) (normalize_row x) = 1).
  { unfold normalize_row. rewrite dot_scale, Rmax_left by done.
    rewrite <- norm_sqr. pose proof eps_pos. field. lra. }
  split; [done | by apply normalize_row_unit].
Qed.

Lemma normalize_row_is_unit_witness :
  dot (normalize_row [3; 4]) (normalize_row [3; 4]) = 1.
Proof.
  apply (normalize_row_is_unit [3; 4]).
  unfold norm, dot, sum, eps. simpl.
  replace (3 * 3 + (4 * 4 + 0)) with (5 * 5) by lra.
  rewrite sqrt_square by lra. lra.
Defined.

(** *** The gate *)

Lemma pair_gate_bounds (y z : vec) : 0 < pair_gate y z <= 1.
Proof.
  unfold pair_gate. split; [apply exp_pos|].
  pose proof (pair_gate_mono_le0 (cosine y z) (cosine_le_1 y z)) as H.
  by rewrite exp_0 in H.
Qed.

Lemma weight_ok (self : LocalSplitMLP) (inp : matrix) :
  center self = [] ∨ concat (center self) ≠ [] →
  inp ≠ [] →
  ∃ w, weight self inp = Ok w ∧ 0 <= w <= 1.
Proof.
  intros [Hc|Hc] Hinp.
  - exists 0. split; [|lra]. unfold weight. by rewrite Hc.
  - destruct (concat (center self)) as [|c cs] eqn:Hcc; [done|].
    destruct inp as [|x xs]; [done|].
    eexists. split; [by apply weight_batch|].
    destruct (max_over_attained (λ y, max_over (pair_gate y) c cs) x xs)
      as (y & _ & ->).
    destruct (max_over_attained (pair_gate y) c cs) as (z & _ & ->).
    pose proof (pair_gate_bounds y z). lra.
Qed.

(** X22. In exact real arithmetic: with at least one centre row registered,
    the gate of every non-empty batch lies in (0, 1], and it is exactly 1 as
    soon as one unit-norm row of the batch is itself a centre row -- which
    is the case for the whole base table once any group has a positive
    example. *)
Theorem gate_is_one_when_batch_contains_centre
        (self : LocalSplitMLP) (inp : matrix) :
  inp ≠ [] → concat (center self) ≠ [] →
  ∃ w, weight self inp = Ok w ∧ 0 < w <= 1
       ∧ (∀ y, y ∈ inp → y ∈ concat (center self) → dot y y = 1 → w = 1).
Proof.
  intros Hinp Hcne.
  destruct (concat (center self)) as [|c cs] eqn:Hcc; [done|].
  destruct inp as [|x xs]; [done|].
  set (G := λ z : vec, max_over (pair_gate z) c cs).
  exists (max_over G x xs). split; [by apply weight_batch|].
  assert (Hup : 0 < max_over G x xs <= 1).
  { destruct (max_over_attained G x xs) as (z & _ & ->). unfold G.
    destruct (max_over_attained (pair_gate z) c cs) as (z' & _ & ->).
    apply pair_gate_bounds. }
  split; [done|]. intros y Hy Hyc Hunit. apply Rle_antisym; [apply Hup|].
  assert (Hyy : pair_gate y y = 1).
  { unfold pair_gate, cosine. rewrite (normalize_row_unit y Hunit), Hunit.
    replace (-10 * (1 - 1)) with 0 by lra. apply exp_0. }
  rewrite <- Hyy. etrans; [|by apply (max_over_ge G x xs y)].
  by apply (max_over_ge (pair_gate y) c cs y).
Qed.

Lemma gate_is_one_when_batch_contains_centre_witness :
  let m := mkModel [[[0; 1]]; [[1; 0]]] (eye 2) [0; 0] (eye 2) [0; 0] in
  weight m [[1; 0]; [3; 4]] = Ok 1.
Proof.
  intros m.
  destruct (gate_is_one_when_batch_contains_centre m [[1; 0]; [3; 4]])
    as (w & Hw & _ & Hone).
  - discriminate.
  - discriminate.
  - rewrite Hw. f_equal. apply (Hone [1; 0]).
    + left.
    + right. left.
    + unfold dot, sum; simpl; lra.
Defined.

(** X23. [update_embedding] on a table: when no centre is registered, or
    centres are registered and the table is not empty, it returns a table
    with as many rows as the base table; with centres registered and an
    empty table it raises RuntimeError. *)
Theorem update_embedding_shape {OptState} (e : Embedder OptState) (inp : matrix) :
  (center (embedder e) = [] ∨ (concat (center (embedder e)) ≠ [] ∧ inp ≠ []) →
   ∃ out, update_embedding e inp = Ok out
          ∧ length out = length inp)
  ∧ (center (embedder e) ≠ [] → inp = [] →
     update_embedding e inp = Raise RuntimeError).
Proof.
  split.
  - intros Hc.
    assert (∃ w, weight (embedder e) inp = Ok w) as [w Hw].
    { destruct Hc as [Hc|[Hc Hinp]].
      - exists 0. unfold weight. by rewrite Hc.
      - destruct (weight_ok (embedder e) inp) as (w & Hw & _); [by right|done|].
        by exists w. }
    eexists. split; [by apply update_embedding_rows|].
    by rewrite length_map.
  - intros Hc ->. unfold update_embedding, refine_image_embedding, encode_image, weight.
    rewrite decide_True by (destruct (center (embedder e)); [done | simpl; lia]).
    done.
Qed.

Lemma update_embedding_shape_witness :
  let m := mkModel [[[0; 1]]] (eye 2) [0; 0] (eye 2) [0; 0] in
  update_embedding (mkEmbedder m tt) [] = Raise RuntimeError.
Proof.
  intros m. apply (update_embedding_shape (mkEmbedder m tt) []); done.
Defined.

(** *** The loss *)

Lemma sum_nonneg (l : list R) : Forall (λ x, 0 <= x) l → 0 <= sum l.
Proof.
  unfold sum. induction 1 as [|x l Hx Hl IH]; simpl; [lra|]. lra.
Qed.

Lemma mean_nonneg (l : list R) : Forall (λ x, 0 <= x) l → 0 <= mean l.
Proof.
  intros Hl. unfold mean. destruct l as [|x l].
  - unfold sum. simpl. rewrite Rdiv_0_l. lra.
  - apply Rmult_le_pos; [by apply sum_nonneg|].
    left. apply Rinv_0_lt_compat. apply lt_0_INR. simpl. lia.
Qed.

Lemma sum_zero (l : list R) : Forall (λ x, x = 0) l → sum l = 0.
Proof.
  unfold sum. induction 1 as [|x l Hx Hl IH]; simpl; [done|]. lra.
Qed.

Lemma d_nonneg (c p : vec) : dot c c = 1 → dot p p = 1 → 0 <= d c p.
Proof.
  intros Hc Hp. unfold d. pose proof (dot_le_squares c p). lra.
Qed.

(** X24. In exact real arithmetic: for a unit-norm centre, non-empty
    unit-norm positives and non-empty negatives the centre margin loss is
    defined and never negative; and when every negative is farther from the
    centre than every positive by at least the margin, the push term
    vanishes and the loss is the mean distance of the positives alone. *)
Theorem center_margin_loss_nonneg (c : vec) (P Q : matrix) :
  dot c c = 1 → Forall (λ p, dot p p = 1) P → P ≠ [] → Q ≠ [] →
  ∃ x, loss_func c P Q = Ok x ∧ 0 <= x
       ∧ ((∀ p q, p ∈ P → q ∈ Q → d c p + 0.1 <= d c q) →
          x = mean (map (d c) P)).
Proof.
  intros Hc HP Hne _. destruct P as [|p0 P]; [done|].
  unfold loss_func, CenterMarginLoss.
  rewrite max_dim0_cons, (tensor_max_map (λ p, 1 - dot c p) p0 P).
  cbn [mbind result_bind].
  eexists. split; [done|]. rewrite map_map.
  change (λ p, 1 - dot c p) with (d c).
  set (hardest := max_over (d c) p0 P).
  set (push := map (λ q, relu (hardest - (1 - dot c q) + 0.1)) Q).
  assert (Hpush : Forall (λ x, 0 <= x) push).
  { apply Forall_forall. intros x Hx.
    apply list_elem_of_In, in_map_iff in Hx as (q & <- & _). apply Rmax_l. }
  split.
  - apply Rplus_le_le_0_compat; [|by apply mean_nonneg].
    apply mean_nonneg. apply Forall_forall. intros x Hx.
    apply list_elem_of_In, in_map_iff in Hx as (p & <- & Hp).
    apply list_elem_of_In in Hp. rewrite Forall_forall in HP.
    apply d_nonneg; [done | by apply HP].
  - intros Hfar.
    assert (Hzero : Forall (λ x, x = 0) push).
    { apply Forall_forall. intros x Hx.
      apply list_elem_of_In, in_map_iff in Hx as (q & <- & Hq).
      apply list_elem_of_In in Hq. unfold relu. apply Rmax_left.
      destruct (max_over_attained (d c) p0 P) as (p & Hp & Hmax).
      unfold hardest. rewrite Hmax.
      specialize (Hfar p q Hp Hq). unfold d in *. lra. }
    unfold mean at 2. rewrite (sum_zero _ Hzero), Rdiv_0_l.
    unfold d. lra.
Qed.

Lemma center_margin_loss_nonneg_witness :
  ∃ x, loss_func [1; 0] [[1; 0]] [[0; 1]] = Ok x ∧ 0 <= x.
Proof.
  destruct (center_margin_loss_nonneg [1; 0] [[1; 0]] [[0; 1]])
    as (x & Hx & Hpos & _).
  - unfold dot, sum; simpl; lra.
  - repeat constructor; unfold dot, sum; simpl; lra.
  - discriminate.
  - discriminate.
  - exists x. split; [exact Hx | exact Hpos].
Defined.

(** *** Identity parameters and the empty centre list *)

Lemma dot_unit_row (i k n : nat) (x : vec) :
  dot (map (λ j, if decide (i = j) then 1 else 0) (seq k n)) x
  = if decide (k ≤ i < k + length x `min` n)%nat
    then default 0 (x !! (i - k)%nat) else 0.
Proof.
  unfold dot, sum, vec in *. revert k x. induction n as [|n IH]; intros k x.
  - simpl. rewrite Nat.min_0_r. by rewrite decide_False by lia.
  - destruct x as [|a x]; [simpl; by rewrite decide_False by lia|].
    cbn [seq map zip_with foldr length]. rewrite (IH (S k) x).
    destruct (decide (i = k)) as [Hik|Hik].
    + subst i.
      rewrite (decide_False (P := (S k ≤ k < _)%nat)) by lia.
      rewrite (decide_True (P := (k ≤ k < _)%nat)) by lia.
      rewrite Nat.sub_diag. simpl. lra.
    + destruct (decide (S k ≤ i < S k + length x `min` n)%nat) as [Hin|Hout].
      * rewrite (decide_True (P := (k ≤ i < _)%nat)) by lia.
        replace (i - k)%nat with (S (i - S k)) by lia. simpl.
        lra.
      * rewrite (decide_False (P := (k ≤ i < _)%nat)) by lia. lra.
Qed.

Lemma map_lookup_seq (x : vec) :
  map (λ i, default 0 (x !! i)) (seq 0 (length x)) = x.
Proof.
  unfold vec in *. induction x as [|a x IH] using rev_ind; [done|].
  rewrite length_app. simpl. rewrite Nat.add_1_r, seq_S, map_app. simpl.
  rewrite list_lookup_middle by done. simpl. f_equal.
  etrans; [|apply IH]. apply map_ext_in. intros i Hi%in_seq.
  by rewrite lookup_app_l by lia.
Qed.

Lemma linear_eye (x : vec) :
  linear (eye (length x)) (replicate (length x) 0) x = x.
Proof.
  unfold linear, eye. rewrite map_map.
  assert (Hrows : map (λ i, dot (map (λ j, if decide (i = j) then 1 else 0)
                                      (seq 0 (length x))) x) (seq 0 (length x))
                  = x).
  { etrans; [|apply (map_lookup_seq x)]. apply map_ext_in. intros i Hi%in_seq.
    rewrite dot_unit_row, Nat.min_id, Nat.sub_0_r. by rewrite decide_True by lia. }
  rewrite Hrows. clear. induction x as [|a x IH]; simpl; [done|].
  f_equal; [lra | done].
Qed.

Lemma blend_same (w : R) (inp : matrix) : blend w inp inp = inp.
Proof.
  unfold blend. induction inp as [|x inp IH]; simpl; [done|]. f_equal; [|done].
  clear. induction x as [|a x IH]; simpl; [done|]. f_equal; [lra | done].
Qed.

Lemma blend_zero (out inp : matrix) :
  Forall2 (λ o x, length x ≤ length o)%nat out inp →
  blend 0 out inp = inp.
Proof.
  unfold blend. induction 1 as [|o x out inp Hlen Hall IH]; simpl; [done|].
  f_equal; [|done]. clear -Hlen. revert o Hlen.
  induction x as [|a x IH]; intros [|b o] Hlen; simpl in *; try done; try lia.
  f_equal; [lra | apply IH; lia].
Qed.

Lemma normalize_unit_rows (inp : matrix) :
  Forall (λ x, dot x x = 1) inp → normalize inp = inp.
Proof.
  unfold normalize. induction 1 as [|x inp Hx Hall IH]; simpl; [done|].
  by rewrite normalize_row_unit, IH.
Qed.

(** X25. In exact real arithmetic: a model with identity parameters, as
    [__init__] builds it for a positive dimension, is a no-op on unit-norm
    embeddings of its dimension whatever the centres and the gate: both
    encoders return their input, and the regularisation term is 0. *)
Theorem identity_model_is_noop (dim : nat) (centers : list matrix)
        (inp : matrix) (w : R) :
  let m := mkModel centers (eye dim) (replicate dim 0) (eye dim) (replicate dim 0) in
  (0 < dim)%nat →
  Forall (λ x, length x = dim ∧ dot x x = 1) inp →
  weight m inp = Ok w →
  encode_image m inp = Ok (inp, 0) ∧ encode_text m inp = Ok (inp, 0).
Proof.
  intros m _ Hinp Hw.
  assert (Hlin : map (linear (eye dim) (replicate dim 0)) inp = inp).
  { clear Hw. induction Hinp as [|x inp [Hl _] _ IH]; simpl; [done|].
    rewrite IH. f_equal. rewrite <- Hl. apply linear_eye. }
  assert (Hunit : Forall (λ x, dot x x = 1) inp)
    by (eapply Forall_impl; [exact Hinp | by intros x [_ ?]]).
  assert (Hreg : regularization m = 0).
  { unfold regularization, m. simpl.
    assert (Hmse : ∀ l, mse_loss l l = 0).
    { intros l. unfold mse_loss, mean. rewrite sum_zero; [by rewrite Rdiv_0_l|].
      induction l as [|a l IH]; simpl; constructor; [lra | done]. }
    replace (last_dim (eye dim)) with dim.
    - rewrite !Hmse. lra.
    - unfold eye. destruct dim; [done|]. simpl. by rewrite length_map, length_seq. }
  unfold encode_image, encode_text. rewrite Hw. cbn [mbind result_bind]. simpl.
  rewrite Hlin, (normalize_unit_rows inp Hunit), blend_same.
  by rewrite (normalize_unit_rows inp Hunit), Hreg.
Qed.

Lemma identity_model_is_noop_witness :
  let m := mkModel [] (eye 2) (replicate 2 0) (eye 2) (replicate 2 0) in
  encode_image m [[1; 0]] = Ok ([[1; 0]], 0).
Proof.
  intros m.
  apply (identity_model_is_noop 2 [] [[1; 0]] 0); [lia| |reflexivity].
  repeat constructor. unfold dot, sum; simpl; lra.
Defined.

(** X26. In exact real arithmetic, where every value is finite: with no
    centre registered the trained parameters have no effect, and both
    encoders return the normalised input, for every weight matrix and bias
    of the input's dimension. *)
Theorem no_centre_passes_through (self : LocalSplitMLP) (inp : matrix) (dim : nat) :
  center self = [] →
  Forall (λ x, length x = dim) inp →
  length (mlp_text_weight self) = dim → length (mlp_text_bias self) = dim →
  length (mlp_image_weight self) = dim → length (mlp_image_bias self) = dim →
  encode_image self inp = Ok (normalize inp, regularization self)
  ∧ encode_text self inp = Ok (normalize inp, regularization self).
Proof.
  intros Hc Hinp Htw Htb Hiw Hib.
  assert (Hw : weight self inp = Ok 0) by (unfold weight; by rewrite Hc).
  assert (Hblend : ∀ W b, length W = dim → length b = dim →
            blend 0 (normalize (map (linear W b) inp)) inp = inp).
  { intros W b HW Hb. apply blend_zero. unfold normalize. rewrite map_map.
    clear Hw. induction Hinp as [|x inp Hx _ IH]; simpl; constructor; [|done].
    unfold normalize_row, linear.
    rewrite length_map, length_zip_with, length_map. lia. }
  unfold encode_image, encode_text. rewrite Hw. cbn [mbind result_bind]. simpl.
  by rewrite !Hblend.
Qed.

Lemma no_centre_passes_through_witness :
  let m := mkModel [] [[0; 1]; [1; 0]] [5; 5] [[2; 0]; [0; 3]] [1; 1] in
  encode_image m [[3; 4]] = Ok (normalize [[3; 4]], regularization m).
Proof.
  intros m. apply (no_centre_passes_through m [[3; 4]] 2); try done.
  by repeat constructor.
Defined.

End EmbeddingMore.

(* ===================================================================== *)
(** ** Further properties of the training loop *)
(* ===================================================================== *)

Section TrainingMore.

Import Embedding Refinement Shape.
Local Open Scope R_scope.

Context {Tokens OptState : Type}.
Variable encoder_encode_text : Tokens → matrix.
Variable optimizer_step :
  (LocalSplitMLP → result R) → LocalSplitMLP → OptState → LocalSplitMLP * OptState.

Lemma encode_image_ok (m : LocalSplitMLP) (x : vec) (xs : matrix) :
  centres_usable m →
  ∃ y ys r, encode_image m (x :: xs) = Ok (y :: ys, r).
Proof.
  intros Hc. destruct (weight_ok m (x :: xs) Hc) as (w & Hw & _); [done|].
  unfold encode_image. rewrite Hw. cbn [mbind result_bind]. simpl.
  by do 3 eexists.
Qed.

Lemma encode_text_ok (m : LocalSplitMLP) (x : vec) (xs : matrix) :
  centres_usable m →
  ∃ y ys r, encode_text m (x :: xs) = Ok (y :: ys, r).
Proof.
  intros Hc. destruct (weight_ok m (x :: xs) Hc) as (w & Hw & _); [done|].
  unfold encode_text. rewrite Hw. cbn [mbind result_bind]. simpl.
  by do 3 eexists.
Qed.

Lemma group_loss_ok (m : LocalSplitMLP) (tokens : Tokens) (pos neg : matrix) :
  centres_usable m → pos ≠ [] → neg ≠ [] → encoder_encode_text tokens ≠ [] →
  ∃ x, group_loss _ encoder_encode_text tokens pos neg m = Ok x.
Proof.
  intros Hc Hpos Hneg Henc.
  destruct pos as [|p ps]; [done|]. destruct neg as [|n ns]; [done|].
  unfold group_loss, refine_image_embedding, refine_text_embedding,
    Embedder_encode_text.
  destruct (encode_image_ok m p ps Hc) as (yp & yps & rp & ->).
  destruct (encode_image_ok m n ns Hc) as (yn & yns & rn & ->).
  destruct (encoder_encode_text tokens) as [|t ts]; [done|].
  cbn [normalize map mbind result_bind].
  destruct (encode_text_ok m (normalize_row (normalize_row t))
              (map normalize_row (map normalize_row ts)) Hc)
    as (yc & ycs & rc & ->).
  cbn [mbind result_bind fst snd]. unfold loss_func, CenterMarginLoss.
  cbn [map max_dim0 mbind result_bind]. by eexists.
Qed.

Lemma drop_lookup_cons {A} (l : list A) (k : nat) (x : A) :
  l !! k = Some x → drop k l = x :: drop (S k) l.
Proof.
  revert k. induction l as [|a l IH]; intros [|k]; simpl; try done.
  - by intros [= ->].
  - apply IH.
Qed.

Section Loop.

Variables (group_embeddings : list Tokens) (pos_example neg_example : list matrix).
Hypothesis Hpos_len : length pos_example = length group_embeddings.
Hypothesis Hneg_len : length neg_example = length group_embeddings.
Hypothesis Hstep : ∀ f m o, center (optimizer_step f m o).1 = center m.
Hypothesis Henc : ∀ tokens, encoder_encode_text tokens ≠ [].

Lemma train_group_run (j : nat) (g : Tokens * (matrix * matrix))
      (e : Embedder OptState) :
  centres_usable (embedder e) →
  zip group_embeddings (zip pos_example neg_example) !! j = Some g →
  train_group encoder_encode_text optimizer_step
              group_embeddings pos_example neg_example j e
  = (Ok tt, if decide (g.2.1 ≠ [] ∧ g.2.2 ≠ [])
            then step_group encoder_encode_text optimizer_step g e else e).
Proof using All.
  intros Hc Hg. destruct g as [t [p n]].
  apply lookup_zip_Some in Hg as [Ht Hpn].
  apply lookup_zip_Some in Hpn as [Hp Hn]. simpl.
  unfold train_group, bind. unfold matrix, vec in *. rewrite Hp. simpl.
  destruct (decide (length p = 0%nat)) as [Hp0|Hp0].
  { apply length_zero_iff_nil in Hp0 as ->.
    by rewrite decide_False by (by intros [? _]). }
  rewrite Hn. simpl.
  destruct (decide (length n = 0%nat)) as [Hn0|Hn0].
  { apply length_zero_iff_nil in Hn0 as ->.
    by rewrite decide_False by (by intros [_ ?]). }
  assert (p ≠ []) by (by intros ->). assert (n ≠ []) by (by intros ->).
  rewrite Ht. simpl. rewrite decide_True by done.
  destruct (group_loss_ok (embedder e) t p n) as [x ->]; done.
Qed.

Lemma optimize_loop (n k : nat) (e : Embedder OptState) :
  centres_usable (embedder e) →
  (k + n ≤ length group_embeddings)%nat →
  let e' := foldl (λ e g, step_group encoder_encode_text optimizer_step g e) e
                  (filter (λ g, g.2.1 ≠ [] ∧ g.2.2 ≠ [])
                     (take n (drop k (zip group_embeddings
                                          (zip pos_example neg_example))))) in
  for_each (seq k n)
           (train_group encoder_encode_text optimizer_step
                        group_embeddings pos_example neg_example) e
  = (Ok tt, e')
  ∧ center (embedder e') = center (embedder e).
Proof using All.
  revert k e. induction n as [|n IH]; intros k e Hc Hk; [by rewrite take_0|].
  assert (Hlen : length (zip group_embeddings (zip pos_example neg_example))
                 = length group_embeddings).
  { rewrite !length_zip. lia. }
  destruct (lookup_lt_is_Some_2
              (zip group_embeddings (zip pos_example neg_example)) k) as [g Hg];
    [lia|].
  rewrite (drop_lookup_cons _ _ _ Hg). cbn [take seq for_each].
  unfold bind. rewrite (train_group_run k g e Hc Hg).
  rewrite filter_cons.
  destruct (decide (g.2.1 ≠ [] ∧ g.2.2 ≠ [])) as [Hnd|Hnd].
  - rewrite decide_True by done. cbn [foldl].
    assert (Hc' : center (embedder (step_group encoder_encode_text
                                               optimizer_step g e))
                  = center (embedder e)) by apply Hstep.
    destruct (IH (S k) (step_group encoder_encode_text optimizer_step g e))
      as [Hrun Hcen]; [unfold centres_usable; by rewrite Hc' | lia |].
    split; [exact Hrun | exact (eq_trans Hcen Hc')].
  - rewrite decide_False by done. apply IH; [done | lia].
Qed.

(** X27. The training loop steps exactly once, in order, on every group
    that has both a positive and a negative example, and on no other; given
    an encoder that returns at least one row, an optimiser that leaves the
    centre list alone and a usable centre list, it raises neither an
    IndexError nor the RuntimeError of an empty maximum.  (Rows are taken to
    have the width of the model, as the tensors of the program do.) *)
Theorem optimize_embedding_steps (e : Embedder OptState) :
  centres_usable (embedder e) →
  let e' := foldl (λ e g, step_group encoder_encode_text optimizer_step g e) e
                  (trained_groups group_embeddings pos_example neg_example) in
  Embedding.optimize_embedding encoder_encode_text optimizer_step
                     group_embeddings pos_example neg_example e
  = (Ok tt, e')
  ∧ center (embedder e') = center (embedder e).
Proof using All.
  intros Hc. unfold Embedding.optimize_embedding, trained_groups.
  destruct (optimize_loop (length group_embeddings) 0 e Hc) as [Hrun Hcen];
    [lia|].
  rewrite drop_0, take_ge in Hrun, Hcen by (rewrite !length_zip; lia).
  by split.
Qed.

End Loop.

End TrainingMore.

Lemma optimize_embedding_steps_witness :
  let e := Embedding.mkEmbedder (Embedding.init 2) 0 in
  Embedding.optimize_embedding (λ _ : unit, [[1; 0]]%R) (λ _ m n, (m, S n))
    [tt; tt] [[[1; 0]]; []]%R [[[0; 1]]; [[0; 1]]]%R e
  = (Ok tt, Embedding.mkEmbedder (Embedding.init 2) 1).
Proof.
  intros e.
  eapply eq_trans.
  - apply (optimize_embedding_steps (λ _ : unit, [[1; 0]]%R) (λ _ m n, (m, S n))
             [tt; tt] [[[1; 0]]; []]%R [[[0; 1]]; [[0; 1]]]%R
             eq_refl eq_refl); [done | done | by left].
  - reflexivity.
Defined.


(* ===================================================================== *)
(** ** Loading the training data and one full round *)
(* ===================================================================== *)

Section RoundMore.

Import Embedding Refinement Shape.

Context {Name Tokens OptState : Type}.
Variable tokenize : Name → Tokens.
Variable encoder_encode_text : Tokens → matrix.
Variable optimizer_step :
  (LocalSplitMLP → result R) → LocalSplitMLP → OptState → LocalSplitMLP * OptState.
Variable getName : ArtSearch.Group → Name.

Lemma select_rows_fits (encodings : matrix) (mask : list bool) :
  length mask = length encodings →
  select_rows encodings mask = Some (masked_rows encodings mask).
Proof. intros H. unfold select_rows. by rewrite decide_True. Qed.

Lemma masked_rows_zeros {A} (encodings : list A) (n : nat) :
  masked_rows encodings (Tensor.zeros n) = [].
Proof.
  unfold masked_rows, Tensor.zeros. revert n.
  induction encodings as [|x l IH]; intros [|n]; simpl; try done.
  rewrite filter_cons, decide_False by done. apply IH.
Qed.

Lemma set_examples_same (e : engine Tokens OptState) :
  set_examples (se_group_embeddings e) (se_pos_example e) (se_neg_example e) e = e.
Proof. by destruct e. Qed.

Lemma load_group_run (positive negative : Tensor.t) (names : list Name) (i : nat)
      (prow nrow : list bool) (name : Name) (e : engine Tokens OptState) :
  positive !! S i = Some prow → negative !! S i = Some nrow →
  names !! i = Some name →
  length prow = length (se_encodings e) → length nrow = length (se_encodings e) →
  load_group tokenize positive negative names (S i) e
  = (Ok tt, set_examples (se_group_embeddings e ++ [tokenize name])
              (se_pos_example e ++ [masked_rows (se_encodings e) prow])
              (se_neg_example e ++ [masked_rows (se_encodings e) nrow]) e).
Proof.
  intros Hp Hn Hname Hlp Hln. unfold load_group.
  rewrite decide_False by done. unfold bind, get, modify, lift.
  rewrite Hp. cbn [ret]. rewrite (select_rows_fits _ _ Hlp). cbn [ret].
  rewrite Hn. cbn [ret]. rewrite (select_rows_fits _ _ Hln). cbn [ret].
  replace (S i - 1)%nat with i by lia. rewrite Hname. by destruct e.
Qed.

Lemma load_groups_run (positive negative : Tensor.t) (names : list Name)
      (n k : nat) (e : engine Tokens OptState) :
  (S k + n ≤ length positive)%nat → (S k + n ≤ length negative)%nat →
  (k + n ≤ length names)%nat →
  (∀ i row, positive !! S i = Some row → length row = length (se_encodings e)) →
  (∀ i row, (i < k + n)%nat → negative !! S i = Some row →
            length row = length (se_encodings e)) →
  for_each (seq (S k) n) (load_group tokenize positive negative names) e
  = (Ok tt,
     set_examples
       (se_group_embeddings e ++ (tokenize <$> take n (drop k names)))
       (se_pos_example e
          ++ (masked_rows (se_encodings e) <$> take n (drop (S k) positive)))
       (se_neg_example e
          ++ (masked_rows (se_encodings e) <$> take n (drop (S k) negative))) e).
Proof.
  revert k e. induction n as [|n IH]; intros k e Hp Hn Hnames Hpw Hnw.
  { rewrite !take_0. simpl. rewrite !app_nil_r. by rewrite set_examples_same. }
  destruct (lookup_lt_is_Some_2 positive (S k)) as [prow Hprow]; [lia|].
  destruct (lookup_lt_is_Some_2 negative (S k)) as [nrow Hnrow]; [lia|].
  destruct (lookup_lt_is_Some_2 names k) as [name Hname]; [lia|].
  cbn [seq for_each]. unfold bind.
  rewrite (load_group_run positive negative names k prow nrow name e);
    [|done|done|done|by eapply Hpw|eapply Hnw; [|done]; lia].
  rewrite IH; [|lia|lia|lia|done|intros i row Hi; apply Hnw; lia].
  rewrite (drop_lookup_cons _ _ _ Hprow), (drop_lookup_cons _ _ _ Hnrow),
    (drop_lookup_cons _ _ _ Hname).
  cbn [take fmap list_fmap]. destruct e. simpl.
  by rewrite <- !app_assoc.
Qed.

Lemma build_centers_aligned (ge : list Tokens) (pos : list matrix) :
  length pos = length ge →
  build_centers encoder_encode_text ge pos = Ok (centres_of encoder_encode_text pos ge).
Proof.
  revert pos. induction ge as [|g ge IH]; intros [|p pos]; simpl; try done.
  intros [= Hlen]. by rewrite (IH pos Hlen).
Qed.

Lemma update_group_embeddings_run (p0 n0 : list bool) (prest nrest : Tensor.t)
      (names : list Name) (e : engine Tokens OptState) :
  (length prest ≤ length nrest)%nat → (length prest ≤ length names)%nat →
  Forall (λ r, length r = length (se_encodings e)) prest →
  Forall (λ r, length r = length (se_encodings e)) (take (length prest) nrest) →
  let ge := tokenize <$> take (length prest) names in
  let pos := masked_rows (se_encodings e) <$> prest in
  let neg := masked_rows (se_encodings e) <$> take (length prest) nrest in
  update_group_embeddings tokenize encoder_encode_text
                          (p0 :: prest) (n0 :: nrest) names e
  = (Ok tt,
     mkEngine (se_encodings e) (se_embeddings e)
              (mkEmbedder (with_center (centres_of encoder_encode_text pos ge)
                                       (embedder (se_embedder e)))
                          (optimizer (se_embedder e)))
              ge pos neg false).
Proof.
  intros Hn Hnames Hpw Hnw ge pos neg.
  unfold update_group_embeddings. unfold bind at 1. unfold modify at 1.
  unfold bind at 1. cbn [length seq for_each]. unfold bind at 1.
  unfold load_group at 1. rewrite decide_True by done. unfold ret at 1.
  rewrite (load_groups_run (p0 :: prest) (n0 :: nrest) names (length prest) 0);
    [|simpl; lia|simpl; lia|lia| |].
  - cbn [drop]. rewrite drop_0, (take_ge prest) by lia.
    unfold bind, get, on_embedder, update_data, modify. simpl.
    rewrite build_centers_aligned by (by rewrite !length_fmap, length_take; lia).
    done.
  - intros i row Hi. simpl in Hi. simpl.
    by eapply (Forall_lookup_1 _ _ _ _ Hpw).
  - intros i row Hlt Hi. simpl in Hi. simpl.
    eapply (Forall_lookup_1 _ _ i _ Hnw). rewrite lookup_take_lt by lia. done.
Qed.

(** X28. [update_group_embeddings] loads one entry per row after row 0:
    the encoded group name, the base rows of the items marked in the row of
    [positive] and those marked in the row of [negative], in the order of the
    rows; it registers as centres, per group, the positive examples followed
    by the normalised encoding of the name, keeps the parameters and the
    optimiser state, and clears the flag.  The canvas rows -- row 0 of both
    tensors -- are never read: no mark made on the canvas reaches the
    training data. *)
Theorem update_group_embeddings_loads_groups (p0 n0 : list bool)
        (prest nrest : Tensor.t) (names : list Name) (e : engine Tokens OptState) :
  (length prest ≤ length nrest)%nat → (length prest ≤ length names)%nat →
  Forall (λ r, length r = length (se_encodings e)) prest →
  Forall (λ r, length r = length (se_encodings e)) (take (length prest) nrest) →
  let ge := tokenize <$> take (length prest) names in
  let pos := masked_rows (se_encodings e) <$> prest in
  let neg := masked_rows (se_encodings e) <$> take (length prest) nrest in
  update_group_embeddings tokenize encoder_encode_text
                          (p0 :: prest) (n0 :: nrest) names e
  = (Ok tt,
     mkEngine (se_encodings e) (se_embeddings e)
              (mkEmbedder (with_center (centres_of encoder_encode_text pos ge)
                                       (embedder (se_embedder e)))
                          (optimizer (se_embedder e)))
              ge pos neg false)
  ∧ ∀ p0' n0',
      update_group_embeddings tokenize encoder_encode_text
                              (p0' :: prest) (n0' :: nrest) names e
      = update_group_embeddings tokenize encoder_encode_text
                                (p0 :: prest) (n0 :: nrest) names e.
Proof.
  intros Hn Hnames Hpw Hnw ge pos neg. split.
  - by apply update_group_embeddings_run.
  - intros p0' n0'. by rewrite !update_group_embeddings_run.
Qed.

(** *** The callers: a well-shaped state always loads *)

Lemma reload_run (s : ArtSearch.state) (e : engine Tokens OptState) :
  ArtSearch.wf s → length (se_encodings e) = ArtSearch.paths_len s →
  let ge := tokenize <$> (getName <$> ArtSearch.groups s) in
  let pos := masked_rows (se_encodings e) <$> drop 1 (ArtSearch.positive s) in
  let neg := masked_rows (se_encodings e) <$> drop 1 (ArtSearch.negative s) in
  reload tokenize encoder_encode_text getName s e
  = (Ok tt,
     mkEngine (se_encodings e) (se_embeddings e)
              (mkEmbedder (with_center (centres_of encoder_encode_text pos ge)
                                       (embedder (se_embedder e)))
                          (optimizer (se_embedder e)))
              ge pos neg false).
Proof.
  intros Hwf Hlen ge pos neg. subst ge pos neg.
  destruct (wf_rows s Hwf) as (p0 & prest & n0 & nrest & Hp & Hn & _ & _).
  destruct Hwf as [Hpr Hnr Hpc Hnc]. unfold reload.
  rewrite Hp, Hn in *. simpl in Hpr, Hnr.
  apply Forall_cons in Hpc as [_ Hpc]. apply Forall_cons in Hnc as [_ Hnc].
  cbn [take drop]. rewrite !drop_0.
  rewrite (take_ge prest), (take_ge nrest) by lia.
  rewrite update_group_embeddings_run.
  - rewrite (take_ge nrest), take_ge by (rewrite ?length_fmap; lia). done.
  - lia.
  - rewrite length_fmap. lia.
  - by rewrite Hlen.
  - rewrite take_ge by lia. by rewrite Hlen.
Qed.

Lemma trained_groups_snoc (ge : list Tokens) (pos neg : list matrix)
      (t : Tokens) (n : matrix) :
  length pos = length ge → length neg = length ge →
  trained_groups (ge ++ [t]) (pos ++ [[]]) (neg ++ [n]) = trained_groups ge pos neg.
Proof.
  intros Hp Hn. unfold trained_groups.
  rewrite (zip_with_app _ pos [[]] neg [n]) by lia.
  rewrite zip_with_app by (rewrite length_zip; lia).
  rewrite filter_app. simpl. rewrite filter_cons, decide_False by (by intros [? _]).
  by rewrite filter_nil, app_nil_r.
Qed.

(** X29. A group that was just created takes no training step.  In a
    well-shaped state, after [create_group] the reloaded data has one more
    entry, whose positive example is empty (the new row of [positive] is
    all [False]) and whose negative example is what the canvas row of
    [negative] marks; the groups the training loop steps on are those it
    stepped on before. *)
Theorem new_group_is_not_trained (s : ArtSearch.state) (group : ArtSearch.Group)
        (e : engine Tokens OptState) :
  ArtSearch.wf s → length (se_encodings e) = ArtSearch.paths_len s →
  ∃ s' n0,
    ArtSearch.create_group group s = (Ok tt, s')
    ∧ ArtSearch.negative s !! 0%nat = Some n0
    ∧ let e1 := (reload tokenize encoder_encode_text getName s e).2 in
      let e2 := (reload tokenize encoder_encode_text getName s' e).2 in
      se_group_embeddings e2 = se_group_embeddings e1 ++ [tokenize (getName group)]
      ∧ se_pos_example e2 = se_pos_example e1 ++ [[]]
      ∧ se_neg_example e2 = se_neg_example e1 ++ [masked_rows (se_encodings e) n0]
      ∧ degenerate (se_pos_example e2) (se_neg_example e2)
                   (length (ArtSearch.groups s))
      ∧ trained_groups (se_group_embeddings e2) (se_pos_example e2) (se_neg_example e2)
        = trained_groups (se_group_embeddings e1) (se_pos_example e1)
                         (se_neg_example e1).
Proof.
  intros Hwf Hlen.
  destruct (wf_rows s Hwf) as (p0 & prest & n0 & nrest & Hp & Hn & Hlp & Hln).
  pose proof (create_group_run s group Hwf) as Hrun.
  set (s' := ArtSearch.mkState _ _ _ _) in Hrun.
  assert (Hwf' : ArtSearch.wf s').
  { destruct Hwf as [Hpr Hnr Hpc Hnc]. subst s'. split; simpl.
    - rewrite !length_app, Hpr. simpl. lia.
    - rewrite !length_app, length_take, Hnr. simpl. lia.
    - apply Forall_app. split; [done|]. repeat constructor.
      apply length_replicate.
    - apply Forall_app. split; [done|]. by apply Forall_take. }
  exists s', n0. split; [exact Hrun|]. split; [by rewrite Hn|].
  intros e1 e2. subst e1 e2.
  rewrite (reload_run s e Hwf Hlen), (reload_run s' e Hwf' Hlen).
  cbn [snd se_group_embeddings se_pos_example se_neg_example].
  destruct Hwf as [Hpr Hnr Hpc Hnc].
  assert (Hge : tokenize <$> (getName <$> ArtSearch.groups s')
                = (tokenize <$> (getName <$> ArtSearch.groups s))
                    ++ [tokenize (getName group)]).
  { subst s'. simpl. by rewrite !fmap_app. }
  assert (Hpos : masked_rows (se_encodings e) <$> drop 1 (ArtSearch.positive s')
                 = (masked_rows (se_encodings e) <$> drop 1 (ArtSearch.positive s))
                     ++ [[]]).
  { subst s'. simpl. rewrite Hp. cbn [drop app]. rewrite !drop_0, fmap_app.
    simpl. by rewrite masked_rows_zeros. }
  assert (Hneg : masked_rows (se_encodings e) <$> drop 1 (ArtSearch.negative s')
                 = (masked_rows (se_encodings e) <$> drop 1 (ArtSearch.negative s))
                     ++ [masked_rows (se_encodings e) n0]).
  { subst s'. simpl. rewrite Hn. cbn [drop app take]. rewrite !drop_0, fmap_app.
    by rewrite take_0. }
  rewrite Hge, Hpos, Hneg. repeat split.
  - exists [], (masked_rows (se_encodings e) n0). split; [|split; [|by left]].
    + rewrite lookup_app_r by (rewrite length_fmap, length_drop, Hpr; lia).
      rewrite length_fmap, length_drop, Hpr.
      by replace (length (ArtSearch.groups s) - (S (length (ArtSearch.groups s)) - 1))%nat
        with 0%nat by lia.
    + rewrite lookup_app_r by (rewrite length_fmap, length_drop, Hnr; lia).
      rewrite length_fmap, length_drop, Hnr.
      by replace (length (ArtSearch.groups s) - (S (length (ArtSearch.groups s)) - 1))%nat
        with 0%nat by lia.
  - apply trained_groups_snoc; rewrite !length_fmap, length_drop; lia.
Qed.

Lemma loaded_centres_usable (pos : list matrix) (ge : list Tokens)
      (m : LocalSplitMLP) :
  (∀ tokens, encoder_encode_text tokens ≠ []) →
  centres_usable (with_center (centres_of encoder_encode_text pos ge) m).
Proof.
  intros Henc. unfold centres_usable, centres_of. simpl.
  destruct pos as [|p pos]; [by left|]. destruct ge as [|g ge]; [by left|].
  right. simpl. intros Hnil.
  apply app_eq_nil in Hnil as [_ Hnil]. apply app_eq_nil in Hnil as [Hnil _].
  unfold Embedder_encode_text, normalize in Hnil.
  apply map_eq_nil, map_eq_nil in Hnil. by apply (Henc g).
Qed.

(** X30. One full round on a well-shaped state returns.  With a table that
    has one row per item and at least one row, a text encoder that returns at
    least one row and an optimiser that leaves the centre list alone,
    [update] raises neither an IndexError nor the RuntimeError of an empty
    maximum: it loads one entry per group, trains, and leaves a refined table
    with one row per item, the centre list as loaded and the flag cleared.  A round of [update_latent] with the flag
    set is the same computation.  (Rows are taken to have the width of the
    model, as the tensors of the program do.) *)
Theorem update_round_returns (s : ArtSearch.state) (e : engine Tokens OptState) :
  ArtSearch.wf s → length (se_encodings e) = ArtSearch.paths_len s →
  se_encodings e ≠ [] →
  (∀ f m o, center (optimizer_step f m o).1 = center m) →
  (∀ tokens, encoder_encode_text tokens ≠ []) →
  let ge := tokenize <$> (getName <$> ArtSearch.groups s) in
  let pos := masked_rows (se_encodings e) <$> drop 1 (ArtSearch.positive s) in
  let neg := masked_rows (se_encodings e) <$> drop 1 (ArtSearch.negative s) in
  ∃ e',
    update tokenize encoder_encode_text optimizer_step getName s e = (Ok tt, e')
    ∧ se_encodings e' = se_encodings e
    ∧ se_group_embeddings e' = ge ∧ se_pos_example e' = pos ∧ se_neg_example e' = neg
    ∧ se_data_changed e' = false
    ∧ se_embedder e'
      = foldl (λ e g, step_group encoder_encode_text optimizer_step g e)
              (mkEmbedder (with_center (centres_of encoder_encode_text pos ge)
                                       (embedder (se_embedder e)))
                          (optimizer (se_embedder e)))
              (trained_groups ge pos neg)
    ∧ center (embedder (se_embedder e')) = centres_of encoder_encode_text pos ge
    ∧ length (se_embeddings e') = length (se_encodings e)
    ∧ (se_data_changed e = true →
       update_latent_round tokenize encoder_encode_text optimizer_step getName s e
       = update tokenize encoder_encode_text optimizer_step getName s e).
Proof.
  intros Hwf Hlen Hne Hstep Henc ge pos neg.
  pose proof (reload_run s e Hwf Hlen) as Hreload. cbv zeta in Hreload.
  fold ge pos neg in Hreload.
  set (e0 := mkEmbedder (with_center (centres_of encoder_encode_text pos ge)
                                     (embedder (se_embedder e)))
                        (optimizer (se_embedder e))) in *.
  assert (Hposlen : length pos = length ge).
  { subst pos ge. destruct Hwf as [Hpr _ _ _].
    rewrite !length_fmap, length_drop, Hpr. lia. }
  assert (Hneglen : length neg = length ge).
  { subst neg ge. destruct Hwf as [_ Hnr _ _].
    rewrite !length_fmap, length_drop, Hnr. lia. }
  assert (Hc0 : centres_usable (embedder e0)) by (by apply loaded_centres_usable).
  destruct (optimize_loop encoder_encode_text optimizer_step ge pos neg
              Hposlen Hneglen Hstep Henc (length ge) 0 e0 Hc0) as [Hopt Hcen]; [lia|].
  rewrite drop_0, take_ge in Hopt, Hcen by (rewrite !length_zip; lia).
  fold (trained_groups ge pos neg) in Hopt, Hcen.
  set (e1 := foldl _ e0 _) in *.
  assert (Hc1 : centres_usable (embedder e1)).
  { unfold centres_usable. by rewrite Hcen. }
  destruct (weight_ok (embedder e1) (se_encodings e) Hc1 Hne) as (w & Hw & _).
  pose proof (update_embedding_rows e1 (se_encodings e) w Hw) as Hupd.
  eexists. split; [|split; [|split; [|split; [|split; [|split; [|split; [|split; [|split]]]]]]]].
  - unfold update, bind. rewrite Hreload.
    unfold optimize_embedding at 1. unfold bind, get, on_embedder.
    cbn [se_group_embeddings se_pos_example se_neg_example se_embedder].
    unfold Embedding.optimize_embedding. rewrite Hopt. cbn [fst snd].
    unfold update_embedding, bind, get. cbn [set_embedder se_embedder se_encodings].
    rewrite Hupd. unfold modify. reflexivity.
  - done.
  - done.
  - done.
  - done.
  - done.
  - done.
  - simpl. exact Hcen.
  - simpl. by rewrite length_map.
  - intros Hflag. unfold update_latent_round, update, bind at 1, get.
    by rewrite Hflag.
Qed.

End RoundMore.

Lemma update_group_embeddings_loads_groups_witness :
  let e := Refinement.mkEngine [[1; 0]; [0; 1]]%R []
             (Embedding.mkEmbedder (Embedding.init 2) tt) [] [] [] true in
  Refinement.update_group_embeddings (λ n : nat, n) (λ _ : nat, [[1; 0]]%R)
    [[true; true]; [true; false]] [[true; false]; [false; true]] [5%nat] e
  = Refinement.update_group_embeddings (λ n : nat, n) (λ _ : nat, [[1; 0]]%R)
      [[false; false]; [true; false]] [[false; false]; [false; true]] [5%nat] e.
Proof.
  intros e.
  destruct (update_group_embeddings_loads_groups
              (λ n : nat, n) (λ _ : nat, [[1; 0]]%R)
              [false; false] [false; false] [[true; false]] [[false; true]]
              [5%nat] e) as [_ H].
  - simpl. lia.
  - simpl. lia.
  - repeat constructor.
  - repeat constructor.
  - exact (H [true; true] [true; false]).
Defined.

Lemma new_group_is_not_trained_witness :
  let s := ArtSearch.mkState 2 [] [[true; false]] [[false; true]] in
  let e := Refinement.mkEngine [[1; 0]; [0; 1]]%R []
             (Embedding.mkEmbedder (Embedding.init 2) tt) [] [] [] true in
  ∃ s',
    ArtSearch.create_group 7 s = (Ok tt, s')
    ∧ Refinement.se_pos_example
        (Refinement.reload (λ n : nat, n) (λ _ : nat, [[1; 0]]%R) (λ g, g) s' e).2
      = Refinement.se_pos_example
          (Refinement.reload (λ n : nat, n) (λ _ : nat, [[1; 0]]%R) (λ g, g) s e).2
          ++ [[]].
Proof.
  intros s e.
  destruct (new_group_is_not_trained (λ n : nat, n) (λ _ : nat, [[1; 0]]%R)
              (λ g, g) s 7%nat e) as (s' & n0 & Hc & _ & _ & Hp & _).
  - split; simpl; repeat constructor.
  - reflexivity.
  - exists s'. split; [exact Hc | exact Hp].
Defined.

Lemma update_round_returns_witness :
  let s := ArtSearch.mkState 2 [7%nat] [[false; false]; [true; false]]
                             [[false; false]; [false; true]] in
  let e := Refinement.mkEngine [[1; 0]; [0; 1]]%R []
             (Embedding.mkEmbedder (Embedding.init 2) tt) [] [] [] true in
  ∃ e',
    Refinement.update (λ n : nat, n) (λ _ : nat, [[1; 0]]%R) (λ _ m o, (m, o))
                      (λ g, g) s e = (Ok tt, e')
    ∧ Refinement.se_data_changed e' = false
    ∧ length (Refinement.se_embeddings e') = 2%nat.
Proof.
  intros s e.
  destruct (update_round_returns (λ n : nat, n) (λ _ : nat, [[1; 0]]%R)
              (λ _ m o, (m, o)) (λ g, g) s e)
    as (e' & Hrun & _ & _ & _ & _ & Hflag & _ & _ & Hlen & _).
  - split; simpl; repeat constructor.
  - reflexivity.
  - discriminate.
  - reflexivity.
  - discriminate.
  - exists e'. split; [exact Hrun|]. split; [exact Hflag | exact Hlen].
Defined.
